(** * watchreadlisten: the search aggregator of [main.go]

    A shallow embedding of [truncate] and [Search] and the properties
    the specification states about them.

    Go strings are byte sequences: [len(s)] counts bytes and [s[:l]] cuts
    at a byte offset.  They are modelled by [string], whose elements are
    8-bit [ascii] values.  Go's [int] is modelled by [Z]; neither function
    does arithmetic on it, so every statement proved for all of [Z] holds
    for the machine integers. *)

From Stdlib Require Import ZArith Ascii Lia.
From stdpp Require Import base option list strings.

Local Open Scope Z_scope.

(** ** Go strings *)

(** [len(s)]: the number of bytes of [s], a Go [int]. *)
Definition len (s : string) : Z := Z.of_nat (String.length s).

(** The first [n] bytes of [s] (all of [s] when it is shorter). *)
Fixpoint take_bytes (n : nat) (s : string) : string :=
  match n, s with
  | S n', String c s' => String c (take_bytes n' s')
  | _, _ => EmptyString
  end.

(** [s[:l]].  The Go runtime panics ("slice bounds out of range") unless
    [0 <= l <= len(s)]; a panic is [None]. *)
Definition slice_to (s : string) (l : Z) : option string :=
  if (0 <=? l) && (l <=? len s) then Some (take_bytes (Z.to_nat l) s) else None.

(** ** The normalizer, [main.go] lines 73-78

<<
func truncate(s, suf string, l int) string {
	if len(s) < l {
		return s
	}
	return s[:l] + suf
}
>> *)
Definition truncate (s suf : string) (l : Z) : option string :=
  if len s <? l then Some s
  else cut ← slice_to s l; Some (cut +:+ suf).

(** ** The rule of the specification, in characters

    The specification counts characters, not bytes.  Titles are UTF-8
    text, where a character is one leading byte followed by its
    continuation bytes (those of the form [10xxxxxx], 128 to 191). *)
Definition is_continuation (c : ascii) : bool :=
  let n := nat_of_ascii c in (128 <=? n)%nat && (n <=? 191)%nat.

(** Number of characters: the bytes that start one. *)
Fixpoint char_count (s : string) : nat :=
  match s with
  | EmptyString => 0
  | String c s' => if is_continuation c then char_count s' else S (char_count s')
  end.

(** The first [n] characters of [s], with all their bytes. *)
Fixpoint take_chars (n : nat) (s : string) : string :=
  match s with
  | EmptyString => EmptyString
  | String c s' =>
      if is_continuation c then String c (take_chars n s')
      else match n with
           | O => EmptyString
           | S n' => String c (take_chars n' s')
           end
  end.

(** The truncation rule as the specification words it: unchanged when the
    character count is below [l], else the first [l] characters and the
    suffix. *)
Definition truncate_spec_chars (s suf : string) (l : Z) : string :=
  if Z.of_nat (char_count s) <? l then s
  else take_chars (Z.to_nat l) s +:+ suf.

(** ** The client libraries

    [rt.Movie], [gr.GoodreadsResponse] and [sp.SearchAlbumsResponse] are
    declared by the imported packages.  [main.go] reads and writes one
    string field of each item and names the path to it; whatever else the
    structs hold is kept abstract, one type per struct, with the zero
    value Go gives a result variable that is never assigned. *)
Class LibraryFields := {
  MovieRest : Type;
  BookRest : Type;
  WorkRest : Type;
  ResultsRest : Type;
  ResponseRest : Type;
  AlbumRest : Type;
  AlbumsRest : Type;
  zero_ResultsRest : ResultsRest;
  zero_ResponseRest : ResponseRest;
  zero_AlbumsRest : AlbumsRest;
}.

(** Go's [error]: [nil], or an error value with its [Error()] text. *)
Definition error : Type := option string.

(** A client method returns a payload and an error, [(T, error)]; the Go
    type lets a non-[nil] error come with any payload. *)
Module rt.
Section types.
Context `{LibraryFields}.
Record Movie := { Title : string; rest : MovieRest }.
Record RottenTomatoes := { SearchMovies : string -> list Movie * error }.
Definition set_Title (t : string) (mov : Movie) : Movie :=
  {| Title := t; rest := rest mov |}.
End types.
End rt.

Module gr.
Section types.
Context `{LibraryFields}.
Record Book := { Title : string; book_rest : BookRest }.
Record Work := { BestBook : Book; work_rest : WorkRest }.
Record Results := { Works : list Work; results_rest : ResultsRest }.
Record GoodreadsResponse := { Search : Results; response_rest : ResponseRest }.
Record Goodreads := { SearchBooks : string -> GoodreadsResponse * error }.
(** [w.BestBook.Title = t] *)
Definition set_Title (t : string) (w : Work) : Work :=
  {| BestBook := {| Title := t; book_rest := book_rest (BestBook w) |};
     work_rest := work_rest w |}.
(** [books.Search.Works[i] = w]; the caller has checked the index. *)
Definition set_Work (i : nat) (w : Work) (books : GoodreadsResponse) :
    GoodreadsResponse :=
  {| Search := {| Works := <[i:=w]> (Works (Search books));
                  results_rest := results_rest (Search books) |};
     response_rest := response_rest books |}.
Definition zero : GoodreadsResponse :=
  {| Search := {| Works := []; results_rest := zero_ResultsRest |};
     response_rest := zero_ResponseRest |}.
End types.
End gr.

Module sp.
Section types.
Context `{LibraryFields}.
Record Album := { Name : string; album_rest : AlbumRest }.
Record SearchAlbumsResponse := { Albums : list Album; albums_rest : AlbumsRest }.
Record Spotify := { SearchAlbums : string -> SearchAlbumsResponse * error }.
(** [a.Name = t] *)
Definition set_Name (t : string) (a : Album) : Album :=
  {| Name := t; album_rest := album_rest a |}.
(** [albums.Albums[i] = a]; the caller has checked the index. *)
Definition set_Album (i : nat) (a : Album) (albums : SearchAlbumsResponse) :
    SearchAlbumsResponse :=
  {| Albums := <[i:=a]> (Albums albums); albums_rest := albums_rest albums |}.
Definition zero : SearchAlbumsResponse :=
  {| Albums := []; albums_rest := zero_AlbumsRest |}.
End types.
End sp.

(** ** The aggregator, [main.go] lines 81-121

    [Search] starts three goroutines and waits for them on a
    [sync.WaitGroup].  Each goroutine is a small machine; the Go scheduler
    picks which one moves next, so a run is driven by a schedule, the list
    of the goroutines in the order they take their steps. *)
Inductive goroutine := go_rt | go_gr | go_sp.

Definition goroutine_eqb (a b : goroutine) : bool :=
  match a, b with
  | go_rt, go_rt | go_gr, go_gr | go_sp, go_sp => true
  | _, _ => false
  end.

(** [fmt.Println(a, b, ...)] writes its operands separated by spaces, as
    one line. *)
Fixpoint Println (args : list string) : string :=
  match args with
  | [] => ""
  | [a] => a
  | a :: rest => a +:+ " " +:+ Println rest
  end.

(** [wg.Done()]: decrements the counter; panics when it becomes negative. *)
Definition Done (counter : Z) : option Z :=
  if counter - 1 <? 0 then None else Some (counter - 1).

Section Search.
Context `{LibraryFields}.

(** Where each goroutine stands.  [*_call]: before the client call.
    [rt_range rest]: in the loop over [movies], [rest] still to visit.
    [gr_range books i n]: in the loop over the [n] works, at index [i],
    [books] the goroutine's local response.  [*_exit]: returned. *)
Inductive rt_pc := rt_call | rt_range (rest : list rt.Movie) | rt_exit.
Inductive gr_pc :=
  gr_call | gr_range (books : gr.GoodreadsResponse) (i n : nat) | gr_exit.
Inductive sp_pc :=
  sp_call | sp_range (albums : sp.SearchAlbumsResponse) (i n : nat) | sp_exit.

(** The variables the goroutines share: the three named results [m], [g],
    [s], the wait group, and standard output.  [truncated] is a ghost
    record of every evaluation of a [truncate(...)] call: who called, and
    on which title. *)
Record state := {
  m : list rt.Movie;
  g : gr.GoodreadsResponse;
  s : sp.SearchAlbumsResponse;
  wg : Z;
  stdout : list string;
  truncated : list (goroutine * string);
  at_rt : rt_pc;
  at_gr : gr_pc;
  at_sp : sp_pc;
}.

Definition print_error (tag : string) (err : error) (st : state) : state :=
  match err with
  | None => st
  | Some e =>
      {| m := m st; g := g st; s := s st; wg := wg st;
         stdout := stdout st ++ [Println [tag; e]];
         truncated := truncated st;
         at_rt := at_rt st; at_gr := at_gr st; at_sp := at_sp st |}
  end.

Definition log_truncate (who : goroutine) (title : string) (st : state) : state :=
  {| m := m st; g := g st; s := s st; wg := wg st; stdout := stdout st;
     truncated := truncated st ++ [(who, title)];
     at_rt := at_rt st; at_gr := at_gr st; at_sp := at_sp st |}.

Definition set_wg (n : Z) (st : state) : state :=
  {| m := m st; g := g st; s := s st; wg := n; stdout := stdout st;
     truncated := truncated st;
     at_rt := at_rt st; at_gr := at_gr st; at_sp := at_sp st |}.

Definition rt_goto (pc : rt_pc) (new_m : list rt.Movie) (st : state) : state :=
  {| m := new_m; g := g st; s := s st; wg := wg st; stdout := stdout st;
     truncated := truncated st;
     at_rt := pc; at_gr := at_gr st; at_sp := at_sp st |}.

Definition gr_goto (pc : gr_pc) (new_g : gr.GoodreadsResponse) (st : state) : state :=
  {| m := m st; g := new_g; s := s st; wg := wg st; stdout := stdout st;
     truncated := truncated st;
     at_rt := at_rt st; at_gr := pc; at_sp := at_sp st |}.

Definition sp_goto (pc : sp_pc) (new_s : sp.SearchAlbumsResponse) (st : state) : state :=
  {| m := m st; g := g st; s := new_s; wg := wg st; stdout := stdout st;
     truncated := truncated st;
     at_rt := at_rt st; at_gr := at_gr st; at_sp := pc |}.

Variable q : string.
Variable rtClient : rt.RottenTomatoes.
Variable grClient : gr.Goodreads.
Variable spClient : sp.Spotify.

(** Lines 84-94.  [None] is a run-time panic.
<<
	go func(q string) {
		defer wg.Done()
		movies, err := rtClient.SearchMovies(q)
		if err != nil {
			fmt.Println("ERROR (rt): ", err.Error())
		}
		for _, mov := range movies {
			mov.Title = truncate(mov.Title, "...", 60)
			m = append(m, mov)
		}
	}(q)
>> *)
Definition step_rt (st : state) : option state :=
  match at_rt st with
  | rt_call =>
      let '(movies, err) := rt.SearchMovies rtClient q in
      Some (rt_goto (rt_range movies) (m st) (print_error "ERROR (rt): " err st))
  | rt_range (mov :: rest) =>
      t ← truncate (rt.Title mov) "..." 60;
      Some (rt_goto (rt_range rest) (m st ++ [rt.set_Title t mov])
              (log_truncate go_rt (rt.Title mov) st))
  | rt_range [] =>
      n ← Done (wg st);
      Some (rt_goto rt_exit (m st) (set_wg n st))
  | rt_exit => Some st
  end.

(** Lines 95-106.
<<
	go func(q string) {
		defer wg.Done()
		books, err := grClient.SearchBooks(q)
		if err != nil {
			fmt.Println("ERROR (gr): ", err.Error())
		}
		for i, w := range books.Search.Works {
			w.BestBook.Title = truncate(w.BestBook.Title, "...", 60)
			books.Search.Works[i] = w
		}
		g = books
	}(q)
>>
    The range expression is evaluated once, so the number of iterations
    [n] is fixed when the loop starts; iteration [i] reads element [i]
    of the slice as it is then. *)
Definition step_gr (st : state) : option state :=
  match at_gr st with
  | gr_call =>
      let '(books, err) := gr.SearchBooks grClient q in
      Some (gr_goto (gr_range books 0 (length (gr.Works (gr.Search books))))
              (g st) (print_error "ERROR (gr): " err st))
  | gr_range books i n =>
      if (i <? n)%nat then
        w ← gr.Works (gr.Search books) !! i;
        t ← truncate (gr.Title (gr.BestBook w)) "..." 60;
        Some (gr_goto (gr_range (gr.set_Work i (gr.set_Title t w) books) (S i) n)
                (g st) (log_truncate go_gr (gr.Title (gr.BestBook w)) st))
      else
        n' ← Done (wg st);
        Some (gr_goto gr_exit books (set_wg n' st))
  | gr_exit => Some st
  end.

(** Lines 107-118.
<<
	go func(q string) {
		defer wg.Done()
		albums, err := spClient.SearchAlbums(q)
		if err != nil {
			fmt.Println("ERROR (sp): ", err.Error())
		}
		for i, a := range albums.Albums {
			a.Name = truncate(a.Name, "...", 60)
			albums.Albums[i] = a
		}
		s = albums
	}(q)
>> *)
Definition step_sp (st : state) : option state :=
  match at_sp st with
  | sp_call =>
      let '(albums, err) := sp.SearchAlbums spClient q in
      Some (sp_goto (sp_range albums 0 (length (sp.Albums albums)))
              (s st) (print_error "ERROR (sp): " err st))
  | sp_range albums i n =>
      if (i <? n)%nat then
        a ← sp.Albums albums !! i;
        t ← truncate (sp.Name a) "..." 60;
        Some (sp_goto (sp_range (sp.set_Album i (sp.set_Name t a) albums) (S i) n)
                (s st) (log_truncate go_sp (sp.Name a) st))
      else
        n' ← Done (wg st);
        Some (sp_goto sp_exit albums (set_wg n' st))
  | sp_exit => Some st
  end.

Definition step (who : goroutine) (st : state) : option state :=
  match who with
  | go_rt => step_rt st
  | go_gr => step_gr st
  | go_sp => step_sp st
  end.

(** The goroutines run in the order of the schedule; a panic in any of
    them ends the program. *)
Fixpoint run (sched : list goroutine) (st : state) : option state :=
  match sched with
  | [] => Some st
  | who :: sched' => st' ← step who st; run sched' st'
  end.

(** Lines 81-83: the named results start at their zero values, and
    [wg.Add(3)] has run before the goroutines start. *)
Definition start : state :=
  {| m := []; g := gr.zero; s := sp.zero; wg := 3; stdout := [];
     truncated := [];
     at_rt := rt_call; at_gr := gr_call; at_sp := sp_call |}.

(** What the caller of [Search] sees. *)
Inductive result :=
| Returned (m : list rt.Movie) (g : gr.GoodreadsResponse)
           (s : sp.SearchAlbumsResponse)
| Blocked
| Panicked.

(** Lines 119-120: [wg.Wait()] lets [Search] return [m, g, s] once the
    counter is zero.  Under a schedule that ends earlier [Search] is
    still [Blocked] in [wg.Wait()]. *)
Definition Search (sched : list goroutine) : result :=
  match run sched start with
  | None => Panicked
  | Some st => if wg st =? 0 then Returned (m st) (g st) (s st) else Blocked
  end.

(** How many steps each goroutine takes from [start]: the call, one per
    item, and the exit. *)
Definition steps_of (who : goroutine) : nat :=
  match who with
  | go_rt => 2 + length (rt.SearchMovies rtClient q).1
  | go_gr => 2 + length (gr.Works (gr.Search (gr.SearchBooks grClient q).1))
  | go_sp => 2 + length (sp.Albums (sp.SearchAlbums spClient q).1)
  end.

Definition turns (who : goroutine) (sched : list goroutine) : nat :=
  length (filter (λ x, goroutine_eqb who x = true) sched).

(** A schedule that lets every goroutine run to its end, as the Go
    scheduler does. *)
Definition complete (sched : list goroutine) : Prop :=
  (steps_of go_rt <= turns go_rt sched)%nat ∧
  (steps_of go_gr <= turns go_gr sched)%nat ∧
  (steps_of go_sp <= turns go_sp sched)%nat.

(** The titles a goroutine has passed to [truncate] so far, in order. *)
Definition calls_of (who : goroutine) (tr : list (goroutine * string)) :
    list string :=
  (filter (λ e, goroutine_eqb who e.1 = true) tr).*2.

Definition truncated_by (who : goroutine) (st : state) : list string :=
  calls_of who (truncated st).
End Search.

(** ** The loop invariants of the goroutines *)

(** The value of [truncate(t, "...", 60)], see [truncate_60]. *)
Definition ellipsis60 (t : string) : string :=
  if len t <? 60 then t else take_bytes 60 t +:+ "...".

Section Invariant.
Context `{LibraryFields}.

Definition normalize_movie (mov : rt.Movie) : rt.Movie :=
  rt.set_Title (ellipsis60 (rt.Title mov)) mov.
Definition normalize_work (w : gr.Work) : gr.Work :=
  gr.set_Title (ellipsis60 (gr.Title (gr.BestBook w))) w.
Definition normalize_album (a : sp.Album) : sp.Album :=
  sp.set_Name (ellipsis60 (sp.Name a)) a.

(** The local response of the books goroutine after [i] iterations:
    the first [i] works are normalized, the others are as received. *)
Definition books_after (i : nat) (books : gr.GoodreadsResponse) :
    gr.GoodreadsResponse :=
  let ws := gr.Works (gr.Search books) in
  {| gr.Search :=
       {| gr.Works := (normalize_work <$> take i ws) ++ drop i ws;
          gr.results_rest := gr.results_rest (gr.Search books) |};
     gr.response_rest := gr.response_rest books |}.

Definition albums_after (i : nat) (albums : sp.SearchAlbumsResponse) :
    sp.SearchAlbumsResponse :=
  let xs := sp.Albums albums in
  {| sp.Albums := (normalize_album <$> take i xs) ++ drop i xs;
     sp.albums_rest := sp.albums_rest albums |}.

Variable q : string.
Variable rtClient : rt.RottenTomatoes.
Variable grClient : gr.Goodreads.
Variable spClient : sp.Spotify.

(** The payloads the three clients return for [q]. *)
Definition movies0 : list rt.Movie := (rt.SearchMovies rtClient q).1.
Definition books0 : gr.GoodreadsResponse := (gr.SearchBooks grClient q).1.
Definition albums0 : sp.SearchAlbumsResponse := (sp.SearchAlbums spClient q).1.
Definition works0 : list gr.Work := gr.Works (gr.Search books0).

Definition rt_inv (st : state) : Prop :=
  match at_rt st with
  | rt_call => m st = [] ∧ truncated_by go_rt st = []
  | rt_range rest =>
      ∃ seen, movies0 = seen ++ rest ∧ m st = normalize_movie <$> seen ∧
              truncated_by go_rt st = rt.Title <$> seen
  | rt_exit =>
      m st = normalize_movie <$> movies0 ∧
      truncated_by go_rt st = rt.Title <$> movies0
  end.

Definition gr_inv (st : state) : Prop :=
  match at_gr st with
  | gr_call => truncated_by go_gr st = []
  | gr_range books i n =>
      n = length works0 ∧ (i <= n)%nat ∧ books = books_after i books0 ∧
      truncated_by go_gr st = (gr.Title ∘ gr.BestBook) <$> take i works0
  | gr_exit =>
      g st = books_after (length works0) books0 ∧
      truncated_by go_gr st = (gr.Title ∘ gr.BestBook) <$> works0
  end.

Definition sp_inv (st : state) : Prop :=
  match at_sp st with
  | sp_call => truncated_by go_sp st = []
  | sp_range albums i n =>
      n = length (sp.Albums albums0) ∧ (i <= n)%nat ∧
      albums = albums_after i albums0 ∧
      truncated_by go_sp st = sp.Name <$> take i (sp.Albums albums0)
  | sp_exit =>
      s st = albums_after (length (sp.Albums albums0)) albums0 ∧
      truncated_by go_sp st = sp.Name <$> sp.Albums albums0
  end.

(** The steps a goroutine still has to take. *)
Definition todo (who : goroutine) (st : state) : nat :=
  match who with
  | go_rt => match at_rt st with
             | rt_call => 2 + length movies0
             | rt_range rest => 1 + length rest
             | rt_exit => 0
             end
  | go_gr => match at_gr st with
             | gr_call => 2 + length works0
             | gr_range _ i n => 1 + (n - i)
             | gr_exit => 0
             end
  | go_sp => match at_sp st with
             | sp_call => 2 + length (sp.Albums albums0)
             | sp_range _ i n => 1 + (n - i)
             | sp_exit => 0
             end
  end.

(** The wait group counts the goroutines that have not returned. *)
Definition running (who : goroutine) (st : state) : Z :=
  match todo who st with O => 0 | S _ => 1 end.

Definition inv (st : state) : Prop :=
  rt_inv st ∧ gr_inv st ∧ sp_inv st ∧
  wg st = running go_rt st + running go_gr st + running go_sp st.

(** What one step does to the step counts: the goroutine that moves has
    one step less to take, the others are where they were. *)
Definition one_step_less (who : goroutine) (st st' : state) : Prop :=
  ∀ other, todo other st' =
           if goroutine_eqb other who then pred (todo other st) else todo other st.

(** The state in which [wg.Wait()] returns: every goroutine has returned,
    each slot holds its client's payload with every title normalized, and
    each goroutine has called [truncate] on the titles of its payload,
    once each, in order. *)
Definition finished (st : state) : Prop :=
  wg st = 0 ∧
  m st = normalize_movie <$> movies0 ∧
  g st = books_after (length works0) books0 ∧
  s st = albums_after (length (sp.Albums albums0)) albums0 ∧
  truncated_by go_rt st = rt.Title <$> movies0 ∧
  truncated_by go_gr st = (gr.Title ∘ gr.BestBook) <$> works0 ∧
  truncated_by go_sp st = sp.Name <$> sp.Albums albums0.
End Invariant.

(** ** Sample data

    Concrete titles, clients and schedules on which the statements below
    are evaluated.  The opaque parts of the library structs are
    instantiated with identifiers and counts. *)
#[global] Instance sample_fields : LibraryFields := {|
  MovieRest := string;
  BookRest := string;
  WorkRest := nat;
  ResultsRest := nat;
  ResponseRest := string;
  AlbumRest := string;
  AlbumsRest := nat;
  zero_ResultsRest := 0%nat;
  zero_ResponseRest := "";
  zero_AlbumsRest := 0%nat;
|}.

(** "e" with an acute accent in UTF-8: one character, two bytes. *)
Definition e_acute : string :=
  String (ascii_of_nat 195) (String (ascii_of_nat 169) EmptyString).

Definition two_accents : string := e_acute +:+ e_acute.

(** 66 bytes, all ASCII. *)
Definition long_title : string :=
  "The Extraordinarily Long Title That Exceeds Sixty Characters Total".

Definition alien : rt.Movie := {| rt.Title := "Alien"; rt.rest := "770672122" |}.
Definition long_movie : rt.Movie := {| rt.Title := long_title; rt.rest := "12" |}.

Definition dune : gr.Work :=
  {| gr.BestBook := {| gr.Title := "Dune"; gr.book_rest := "Frank Herbert" |};
     gr.work_rest := 1965%nat |}.
Definition long_book : gr.Work :=
  {| gr.BestBook := {| gr.Title := long_title; gr.book_rest := "Anonymous" |};
     gr.work_rest := 2001%nat |}.
Definition books_found (ws : list gr.Work) : gr.GoodreadsResponse :=
  {| gr.Search := {| gr.Works := ws; gr.results_rest := length ws |};
     gr.response_rest := "search" |}.

Definition kind_of_blue : sp.Album :=
  {| sp.Name := "Kind of Blue"; sp.album_rest := "spotify:album:1" |}.
Definition long_album : sp.Album :=
  {| sp.Name := long_title; sp.album_rest := "spotify:album:2" |}.
Definition albums_found (xs : list sp.Album) : sp.SearchAlbumsResponse :=
  {| sp.Albums := xs; sp.albums_rest := length xs |}.

(** Clients that succeed. *)
Definition rt_ok : rt.RottenTomatoes :=
  {| rt.SearchMovies := λ _, ([alien; long_movie], None) |}.
Definition gr_ok : gr.Goodreads :=
  {| gr.SearchBooks := λ _, (books_found [long_book; dune], None) |}.
Definition sp_ok : sp.Spotify :=
  {| sp.SearchAlbums := λ _, (albums_found [kind_of_blue; long_album], None) |}.

(** Clients that fail and return the zero payload with the error. *)
Definition rt_down : rt.RottenTomatoes :=
  {| rt.SearchMovies := λ _, ([], Some "connection refused") |}.
Definition gr_down : gr.Goodreads :=
  {| gr.SearchBooks := λ _, (gr.zero, Some "connection refused") |}.
Definition sp_down : sp.Spotify :=
  {| sp.SearchAlbums := λ _, (sp.zero, Some "connection refused") |}.

(** Clients that fail after part of the answer has been decoded and
    return that part with the error. *)
Definition rt_partial : rt.RottenTomatoes :=
  {| rt.SearchMovies := λ _, ([alien], Some "unexpected end of JSON input") |}.
Definition gr_partial : gr.Goodreads :=
  {| gr.SearchBooks := λ _, (books_found [dune], Some "XML syntax error") |}.

(** The results of a search on [rt_ok], [gr_ok] and [sp_ok], and clients
    that return these results. *)
Definition long_title_cut : string :=
  "The Extraordinarily Long Title That Exceeds Sixty Characters...".
Definition found_movies : list rt.Movie :=
  [alien; rt.set_Title long_title_cut long_movie].
Definition found_books : gr.GoodreadsResponse :=
  books_found [gr.set_Title long_title_cut long_book; dune].
Definition found_albums : sp.SearchAlbumsResponse :=
  albums_found [kind_of_blue; sp.set_Name long_title_cut long_album].
Definition rt_again : rt.RottenTomatoes :=
  {| rt.SearchMovies := λ _, (found_movies, None) |}.
Definition gr_again : gr.Goodreads :=
  {| gr.SearchBooks := λ _, (found_books, None) |}.
Definition sp_again : sp.Spotify :=
  {| sp.SearchAlbums := λ _, (found_albums, Some "rate limited") |}.

(** [n] rounds in which the three goroutines take turns. *)
Fixpoint round_robin (n : nat) : list goroutine :=
  match n with
  | O => []
  | S n' => go_rt :: go_gr :: go_sp :: round_robin n'
  end.

(** The movies goroutine runs to its end, then the books one, then the
    albums one. *)
Definition one_by_one (n : nat) : list goroutine :=
  replicate n go_rt ++ replicate n go_gr ++ replicate n go_sp.

(** ** ASCII titles *)

(** Every byte is below 128: each byte is a character of its own. *)
Fixpoint all_ascii (s : string) : bool :=
  match s with
  | EmptyString => true
  | String c s' => (nat_of_ascii c <? 128)%nat && all_ascii s'
  end.

(** ** What [Search] prints

    The line a goroutine prints after its client call: none when the
    error is [nil]. *)
Definition error_line (tag : string) (err : error) : list string :=
  match err with
  | None => []
  | Some e => [Println [tag; e]]
  end.

Section Printed.
Context `{LibraryFields}.
Variable q : string.
Variable rtClient : rt.RottenTomatoes.
Variable grClient : gr.Goodreads.
Variable spClient : sp.Spotify.

(** The lines each goroutine has printed when the state is [st]: its
    error line once it is past the client call. *)
Definition printed_rt (st : state) : list string :=
  match at_rt st with
  | rt_call => []
  | _ => error_line "ERROR (rt): " (rt.SearchMovies rtClient q).2
  end.
Definition printed_gr (st : state) : list string :=
  match at_gr st with
  | gr_call => []
  | _ => error_line "ERROR (gr): " (gr.SearchBooks grClient q).2
  end.
Definition printed_sp (st : state) : list string :=
  match at_sp st with
  | sp_call => []
  | _ => error_line "ERROR (sp): " (sp.SearchAlbums spClient q).2
  end.

(** Standard output holds what the three goroutines have printed, in
    the order the schedule made them print. *)
Definition stdout_inv (st : state) : Prop :=
  stdout st ≡ₚ printed_rt st ++ printed_gr st ++ printed_sp st.
End Printed.

(** ** Configuration, [main.go] lines 35-54

    [yaml.ReadFile] and the method [Get] of [yaml.File] belong to the go-gypsy
    package; a file is modelled by what [Get] answers for each key, and
    reading is a parameter. *)
Module yaml.
Record File := { Get : string → string * error }.
End yaml.

(**
<<
func parseYAML() (rtKey, grKey, grSecret string, err error) {
	config, err := yaml.ReadFile(configFile)   // the flag's value
	if err != nil {
		return
	}
	rtKey, err = config.Get("rt")
	if err != nil {
		return
	}
	grKey, err = config.Get("gr.key")
	if err != nil {
		return
	}
	grSecret, err = config.Get("gr.secret")
	if err != nil {
		return
	}

	return rtKey, grKey, grSecret, nil
}
>>
    The results are named, so a bare [return] gives back what has been
    assigned so far and the empty string for the rest. *)
Definition parseYAML (ReadFile : string → yaml.File * error) (configFile : string) :
    string * string * string * error :=
  let '(config, err) := ReadFile configFile in
  match err with
  | Some _ => ("", "", "", err)
  | None =>
      let '(rtKey, err) := yaml.Get config "rt" in
      match err with
      | Some _ => (rtKey, "", "", err)
      | None =>
          let '(grKey, err) := yaml.Get config "gr.key" in
          match err with
          | Some _ => (rtKey, grKey, "", err)
          | None =>
              let '(grSecret, err) := yaml.Get config "gr.secret" in
              match err with
              | Some _ => (rtKey, grKey, grSecret, err)
              | None => (rtKey, grKey, grSecret, None)
              end
          end
      end
  end.

(** ** Routing, [main.go] lines 205-216

    The part of Go's [regexp] package the program uses: patterns made of
    literal bytes, [.], a greedy [*] on one of these, capturing groups,
    and the anchors [^] and [$].  Without flags [.] is any byte but the
    newline, [^] is the start of the text and [$] its end. *)
Module regexp.

Inductive class := Lit (c : ascii) | Dot.

(** A compiled pattern.  [Save n] stores the current offset in slot [n]:
    slots [2k] and [2k+1] are the bounds of group [k]. *)
Inductive inst :=
| Bol
| Eol
| One (c : class)
| Star (c : class)
| Save (n : nat).

Definition Regexp := list inst.

Definition newline : ascii := ascii_of_nat 10.

Definition accepts (c : class) (b : ascii) : bool :=
  match c with
  | Lit a => Ascii.eqb a b
  | Dot => negb (Ascii.eqb b newline)
  end.

(** Parsing.  [group] numbers the next group to open, [opened] lists the
    groups that are open.  A [*] after a group, a stray [*] or [)] and an
    unclosed group are outside this fragment ([None]). *)
Fixpoint parse (pat : string) (group : nat) (opened : list nat) :
    option Regexp :=
  match pat with
  | EmptyString => match opened with [] => Some [] | _ => None end
  | String c pat' =>
      if Ascii.eqb c "^" then (Bol ::.) <$> parse pat' group opened
      else if Ascii.eqb c "$" then (Eol ::.) <$> parse pat' group opened
      else if Ascii.eqb c "(" then
        (Save (2 * group) ::.) <$> parse pat' (S group) (group :: opened)
      else if Ascii.eqb c ")" then
        match opened, pat' with
        | [], _ => None
        | _, String "*" _ => None
        | k :: opened', _ => (Save (2 * k + 1) ::.) <$> parse pat' group opened'
        end
      else if Ascii.eqb c "*" then None
      else
        let cl := if Ascii.eqb c "." then Dot else Lit c in
        match pat' with
        | String "*" pat'' => (Star cl ::.) <$> parse pat'' group opened
        | _ => (One cl ::.) <$> parse pat' group opened
        end
  end.

(** [regexp.Compile]: the whole match is group 0. *)
Definition Compile (pat : string) : option Regexp :=
  prog ← parse pat 1 []; Some (Save 0 :: prog ++ [Save 1]).

(** Backtracking execution from offset [pos], with [rest] the text from
    there on; the result is the slots of the first match in the order of
    preference (a greedy [*] tries the longest repetition first). *)
Fixpoint exec (prog : Regexp) (pos : nat) (rest : string)
    (slots : list (nat * nat)) : option (list (nat * nat)) :=
  match prog with
  | [] => Some slots
  | Bol :: prog' => if (pos =? 0)%nat then exec prog' pos rest slots else None
  | Eol :: prog' =>
      match rest with
      | EmptyString => exec prog' pos rest slots
      | _ => None
      end
  | One c :: prog' =>
      match rest with
      | String b rest' =>
          if accepts c b then exec prog' (S pos) rest' slots else None
      | EmptyString => None
      end
  | Star c :: prog' =>
      (fix star (pos : nat) (rest : string) : option (list (nat * nat)) :=
         match rest with
         | String b rest' =>
             if accepts c b then
               match star (S pos) rest' with
               | Some found => Some found
               | None => exec prog' pos rest slots
               end
             else exec prog' pos rest slots
         | EmptyString => exec prog' pos rest slots
         end) pos rest
  | Save n :: prog' => exec prog' pos rest ((n, pos) :: slots)
  end.

(** The leftmost match: the first offset from which [exec] succeeds. *)
Fixpoint find (prog : Regexp) (pos : nat) (rest : string) :
    option (list (nat * nat)) :=
  match exec prog pos rest [] with
  | Some slots => Some slots
  | None =>
      match rest with
      | String _ rest' => find prog (S pos) rest'
      | EmptyString => None
      end
  end.

(** The last value stored in slot [n]. *)
Definition slot (n : nat) (slots : list (nat * nat)) : option nat :=
  snd <$> List.find (λ e, (e.1 =? n)%nat) slots.

(** The text of group [k]; the empty string for a group that took no
    part in the match. *)
Definition group_text (text : string) (slots : list (nat * nat)) (k : nat) : string :=
  match slot (2 * k) slots, slot (2 * k + 1) slots with
  | Some from, Some to => String.substring from (to - from) text
  | _, _ => ""
  end.

Definition groups (prog : Regexp) : nat :=
  length (filter (λ i, match i with Save n => Nat.even n | _ => false end = true) prog).

(** [re.FindStringSubmatch(text)]: [nil] ([None]) without a match, else
    the texts of the whole match and of each group. *)
Definition FindStringSubmatch (re : Regexp) (text : string) : option (list string) :=
  slots ← find re 0 text;
  Some (group_text text slots <$> seq 0 (groups re)).

End regexp.

(** Line 205, [var validSearchPath = regexp.MustCompile(...)]: the start
    of the text, the eight bytes of "/search/", one group holding a
    greedy repetition of [.], and the end of the text. *)
Definition validSearchPath : option regexp.Regexp :=
  regexp.Compile "^/search/(.*)$".

Section Routing.
(** The response writer, the request with its [URL.Path], and
    [http.NotFound] are those of [net/http]. *)
Variables (ResponseWriter Request Effect : Type).
Variable URL_Path : Request → string.
Variable NotFound : ResponseWriter → Request → Effect.

(**
<<
func makeSearchHandler(fn func(http.ResponseWriter, *http.Request, string)) http.HandlerFunc {
	return func(w http.ResponseWriter, r *http.Request) {
		m := validSearchPath.FindStringSubmatch(r.URL.Path)
		if m == nil {
			http.NotFound(w, r)
			return
		}
		fn(w, r, m[1])
	}
}
>>
    [None] is a panic: [MustCompile] on a pattern that does not compile,
    or [m[1]] out of range. *)
Definition makeSearchHandler (fn : ResponseWriter → Request → string → Effect)
    (w : ResponseWriter) (r : Request) : option Effect :=
  re ← validSearchPath;
  match regexp.FindStringSubmatch re (URL_Path r) with
  | None => Some (NotFound w r)
  | Some m => query ← m !! 1%nat; Some (fn w r query)
  end.
End Routing.

(** [s] without its prefix [p], when it has it. *)
Fixpoint strip_prefix (p s : string) : option string :=
  match p, s with
  | EmptyString, _ => Some s
  | String a p', String b s' => if Ascii.eqb a b then strip_prefix p' s' else None
  | String _ _, EmptyString => None
  end.

(** No newline among the bytes of [s]. *)
Fixpoint no_newline (s : string) : bool :=
  match s with
  | EmptyString => true
  | String b s' => negb (Ascii.eqb b regexp.newline) && no_newline s'
  end.

(** ** Byte-string lemmas *)

Lemma length_append (s t : string) :
  String.length (s +:+ t) = (String.length s + String.length t)%nat.
Proof. induction s as [|c s IH]; simpl; [reflexivity | now rewrite IH]. Qed.

Lemma len_append (s t : string) : len (s +:+ t) = len s + len t.
Proof. unfold len. rewrite length_append. lia. Qed.

Lemma len_nonneg (s : string) : 0 <= len s.
Proof. unfold len. lia. Qed.

Lemma length_take_bytes (n : nat) (s : string) :
  (n <= String.length s)%nat -> String.length (take_bytes n s) = n.
Proof.
  revert s. induction n as [|n IH]; intros [|c s] Hn; simpl in *; try lia.
  rewrite IH; lia.
Qed.

Lemma take_bytes_all (s : string) : take_bytes (String.length s) s = s.
Proof. induction s as [|c s IH]; simpl; [reflexivity | now rewrite IH]. Qed.

(** Cutting [take_bytes n s +:+ t] back to [n] bytes drops [t] again. *)
Lemma take_bytes_append (n : nat) (s t : string) :
  (n <= String.length s)%nat ->
  take_bytes n (take_bytes n s +:+ t) = take_bytes n s.
Proof.
  revert s. induction n as [|n IH]; intros [|c s] Hn; simpl in *;
    try reflexivity; try lia.
  rewrite IH; [reflexivity | lia].
Qed.

Lemma slice_to_in_range (s : string) (l : Z) :
  0 <= l <= len s -> slice_to s l = Some (take_bytes (Z.to_nat l) s).
Proof.
  intros [H0 H1]. unfold slice_to.
  destruct (Z.leb_spec 0 l), (Z.leb_spec l (len s)); simpl; (reflexivity || lia).
Qed.

Lemma slice_to_out_of_range (s : string) (l : Z) :
  l < 0 \/ len s < l -> slice_to s l = None.
Proof.
  intros H. unfold slice_to.
  destruct (Z.leb_spec 0 l), (Z.leb_spec l (len s)); simpl; (reflexivity || lia).
Qed.

(** The two branches of [truncate]. *)
Lemma truncate_short (s suf : string) (l : Z) :
  len s < l -> truncate s suf l = Some s.
Proof. intros H. unfold truncate. now destruct (Z.ltb_spec (len s) l); [|lia]. Qed.

Lemma truncate_long (s suf : string) (l : Z) :
  0 <= l <= len s ->
  truncate s suf l = Some (take_bytes (Z.to_nat l) s +:+ suf).
Proof.
  intros H. unfold truncate.
  destruct (Z.ltb_spec (len s) l); [lia|].
  now rewrite slice_to_in_range.
Qed.

Lemma truncate_negative (s suf : string) (l : Z) :
  l < 0 -> truncate s suf l = None.
Proof.
  intros H. unfold truncate. pose proof (len_nonneg s).
  destruct (Z.ltb_spec (len s) l); [lia|].
  rewrite slice_to_out_of_range; [reflexivity | lia].
Qed.

Lemma truncate_is_Some (s suf : string) (l : Z) :
  0 <= l -> is_Some (truncate s suf l).
Proof.
  intros H. destruct (Z.lt_ge_cases (len s) l).
  - rewrite truncate_short; eauto.
  - rewrite truncate_long; eauto.
Qed.

(** A result of [truncate] is left alone by a second pass with the same
    suffix and bound. *)
Lemma truncate_fixed (s suf r : string) (l : Z) :
  truncate s suf l = Some r -> truncate r suf l = Some r.
Proof.
  destruct (Z.lt_ge_cases l 0) as [Hneg|Hpos].
  { rewrite truncate_negative; [discriminate | exact Hneg]. }
  destruct (Z.lt_ge_cases (len s) l) as [Hs|Hs].
  - rewrite (truncate_short _ _ _ Hs). intros [= <-]. now apply truncate_short.
  - rewrite truncate_long by lia. intros [= <-].
    assert (Hn : (Z.to_nat l <= String.length s)%nat) by (unfold len in Hs; lia).
    rewrite truncate_long.
    + now rewrite take_bytes_append.
    + rewrite len_append. unfold len at 1. rewrite length_take_bytes by exact Hn.
      pose proof (len_nonneg suf). lia.
Qed.

Lemma truncate_60 (t : string) : truncate t "..." 60 = Some (ellipsis60 t).
Proof.
  unfold ellipsis60. destruct (Z.ltb_spec (len t) 60) as [Hlt|Hge].
  - now apply truncate_short.
  - rewrite truncate_long by lia. reflexivity.
Qed.

(** ** The goroutines one step at a time *)

Section Steps.
Context `{LibraryFields}.
Variable q : string.
Variable rtClient : rt.RottenTomatoes.
Variable grClient : gr.Goodreads.
Variable spClient : sp.Spotify.

Local Abbreviation step_rt := (step_rt q rtClient).
Local Abbreviation step_gr := (step_gr q grClient).
Local Abbreviation step_sp := (step_sp q spClient).
Local Abbreviation step := (step q rtClient grClient spClient).
Local Abbreviation run := (run q rtClient grClient spClient).
Local Abbreviation inv := (inv q rtClient grClient spClient).
Local Abbreviation todo := (todo q rtClient grClient spClient).
Local Abbreviation running := (running q rtClient grClient spClient).
Local Abbreviation one_step_less := (one_step_less q rtClient grClient spClient).
Local Abbreviation finished := (finished q rtClient grClient spClient).
Local Abbreviation complete := (complete q rtClient grClient spClient).
Local Abbreviation steps_of := (steps_of q rtClient grClient spClient).
Local Abbreviation Search := (Search q rtClient grClient spClient).
Local Abbreviation movies0 := (movies0 q rtClient).
Local Abbreviation books0 := (books0 q grClient).
Local Abbreviation works0 := (works0 q grClient).
Local Abbreviation albums0 := (albums0 q spClient).

Lemma calls_of_snoc who who' t tr :
  calls_of who (tr ++ [(who', t)]) =
  calls_of who tr ++ (if goroutine_eqb who who' then [t] else []).
Proof.
  unfold calls_of. rewrite filter_app, fmap_app. f_equal.
  rewrite filter_cons, filter_nil. simpl.
  now destruct (goroutine_eqb who who'); case_decide.
Qed.

Lemma books_after_0 books : books_after 0 books = books.
Proof. now destruct books as [[ws r] r']. Qed.

Lemma albums_after_0 albums : albums_after 0 albums = albums.
Proof. now destruct albums as [xs r]. Qed.

(** One iteration of an index loop: overwriting element [i] with its
    normalized copy moves the boundary between the normalized prefix
    and the untouched rest one to the right. *)
Lemma insert_normalized {A} (f : A → A) (l : list A) (i : nat) (x : A) :
  l !! i = Some x →
  <[i:=f x]> ((f <$> take i l) ++ drop i l) = (f <$> take (S i) l) ++ drop (S i) l.
Proof.
  intros Hx. pose proof (lookup_lt_Some _ _ _ Hx) as Hi.
  rewrite insert_app_r_alt; rewrite length_fmap, length_take, Nat.min_l by lia;
    [|lia].
  rewrite Nat.sub_diag, (drop_S _ _ _ Hx). simpl.
  rewrite (take_S_r _ _ _ Hx), fmap_app, <- app_assoc. reflexivity.
Qed.

Lemma lookup_partly_normalized {A} (f : A → A) (l : list A) (i : nat) :
  ((f <$> take i l) ++ drop i l) !! i = l !! i.
Proof.
  destruct (decide (i < length l)%nat) as [Hi|Hi].
  - rewrite lookup_app_r; rewrite length_fmap, length_take, Nat.min_l by lia;
      [|lia].
    rewrite Nat.sub_diag, lookup_drop. f_equal. lia.
  - rewrite (lookup_ge_None_2 l) by lia. apply lookup_ge_None_2.
    rewrite length_app, length_fmap, length_take, length_drop. lia.
Qed.

Lemma books_after_S i w :
  works0 !! i = Some w →
  gr.set_Work i (normalize_work w) (books_after i books0) = books_after (S i) books0.
Proof.
  intros Hw. unfold gr.set_Work, books_after. simpl.
  fold works0. now rewrite (insert_normalized normalize_work _ _ _ Hw).
Qed.

Lemma albums_after_S i a :
  sp.Albums albums0 !! i = Some a →
  sp.set_Album i (normalize_album a) (albums_after i albums0) =
  albums_after (S i) albums0.
Proof.
  intros Ha. unfold sp.set_Album, albums_after. simpl.
  now rewrite (insert_normalized normalize_album _ _ _ Ha).
Qed.
End Steps.

Section Machine.
Context `{LibraryFields}.
Variable q : string.
Variable rtClient : rt.RottenTomatoes.
Variable grClient : gr.Goodreads.
Variable spClient : sp.Spotify.

Local Abbreviation step := (step q rtClient grClient spClient).
Local Abbreviation run := (run q rtClient grClient spClient).
Local Abbreviation inv := (inv q rtClient grClient spClient).
Local Abbreviation todo := (todo q rtClient grClient spClient).
Local Abbreviation running := (running q rtClient grClient spClient).
Local Abbreviation one_step_less := (one_step_less q rtClient grClient spClient).
Local Abbreviation finished := (finished q rtClient grClient spClient).
Local Abbreviation complete := (complete q rtClient grClient spClient).
Local Abbreviation steps_of := (steps_of q rtClient grClient spClient).
Local Abbreviation Search := (Search q rtClient grClient spClient).
Local Abbreviation movies0 := (movies0 q rtClient).
Local Abbreviation books0 := (books0 q grClient).
Local Abbreviation works0 := (works0 q grClient).
Local Abbreviation albums0 := (albums0 q spClient).

Local Arguments calls_of : simpl never.

Local Ltac open_state st :=
  destruct st as [m0 g0 s0 wg0 out0 tr0 pc_rt pc_gr pc_sp];
  intros (Hrt & Hgr & Hsp & Hwg);
  unfold inv, rt_inv, gr_inv, sp_inv, running, one_step_less, truncated_by in *;
  simpl in *.

Local Ltac frame :=
  rewrite ?calls_of_snoc; simpl; rewrite ?app_nil_r; try assumption.

Local Ltac counts :=
  let other := fresh "other" in
  intros other; destruct other; simpl; rewrite ?Nat.sub_0_r;
  try reflexivity; try lia.

Lemma step_rt_inv st :
  inv st → ∃ st', step_rt q rtClient st = Some st' ∧ inv st' ∧ one_step_less go_rt st st'.
Proof.
  open_state st. unfold step_rt. simpl.
  destruct pc_rt as [|[|mov rest]|].
  - (* the client call *)
    destruct Hrt as [-> Htr].
    assert (Hm0 : (rt.SearchMovies rtClient q).1 = movies0) by reflexivity.
    destruct (rt.SearchMovies rtClient q) as [movies [e|]]; simpl in Hm0; subst movies;
      (eexists; split; [reflexivity|]; simpl;
       split; [split; [|split; [|split]]|]; frame).
    all: try (by exists []). all: counts.
  - (* the end of the loop and the deferred wg.Done() *)
    destruct Hrt as (seen & Hseen & Hm & Htr). rewrite app_nil_r in Hseen. subst seen.
    unfold Done. destruct (Z.ltb_spec (wg0 - 1) 0) as [Hneg|Hok].
    { exfalso. revert Hwg Hneg. clear.
      repeat match goal with |- context [match ?x with _ => _ end] => destruct x end; lia. }
    eexists; split; [reflexivity|]; simpl.
    split; [split; [|split; [|split]]|]; frame; [by split | lia | counts].
  - (* one iteration *)
    destruct Hrt as (seen & Hseen & Hm & Htr).
    rewrite truncate_60. eexists; split; [reflexivity|]; simpl.
    split; [split; [|split; [|split]]|]; frame; [|counts].
    exists (seen ++ [mov]). rewrite <- app_assoc, !fmap_app, Hm, Htr. by simpl.
  - (* returned *)
    eexists; split; [reflexivity|]; simpl.
    split; [split; [|split; [|split]]|]; frame; counts.
Qed.

Lemma step_gr_inv st :
  inv st → ∃ st', step_gr q grClient st = Some st' ∧ inv st' ∧ one_step_less go_gr st st'.
Proof.
  open_state st. unfold step_gr. simpl.
  destruct pc_gr as [|books i n|].
  - (* the client call *)
    assert (Hb0 : (gr.SearchBooks grClient q).1 = books0) by reflexivity.
    destruct (gr.SearchBooks grClient q) as [books [e|]]; simpl in Hb0; subst books;
      (eexists; split; [reflexivity|]; simpl;
       split; [split; [|split; [|split]]|]; frame).
    all: try (by rewrite books_after_0; repeat split; try lia).
    all: counts.
  - destruct Hgr as (-> & Hi & -> & Htr).
    destruct (Nat.ltb_spec i (length works0)) as [Hlt|Hge].
    + (* one iteration *)
      simpl. fold works0. rewrite lookup_partly_normalized.
      destruct (lookup_lt_is_Some_2 works0 i Hlt) as [w Hw]. rewrite Hw. simpl.
      rewrite truncate_60. eexists; split; [reflexivity|]; simpl.
      split; [split; [|split; [|split]]|]; frame; [|counts].
      repeat split; [lia | by apply books_after_S |].
      rewrite Htr, (take_S_r _ _ _ Hw), fmap_app. reflexivity.
    + (* the end of the loop, [g = books] and the deferred wg.Done() *)
      assert (i = length works0) as -> by lia.
      unfold Done. destruct (Z.ltb_spec (wg0 - 1) 0) as [Hneg|Hok].
      { exfalso. revert Hwg Hneg. clear.
        repeat match goal with |- context [match ?x with _ => _ end] => destruct x end; lia. }
      eexists; split; [reflexivity|]; simpl.
      rewrite ?Nat.sub_diag in Hwg.
      split; [split; [|split; [|split]]|]; frame; [|lia|counts].
      split; [reflexivity|]. by rewrite Htr, firstn_all.
  - (* returned *)
    eexists; split; [reflexivity|]; simpl.
    split; [split; [|split; [|split]]|]; frame; counts.
Qed.

Lemma step_sp_inv st :
  inv st → ∃ st', step_sp q spClient st = Some st' ∧ inv st' ∧ one_step_less go_sp st st'.
Proof.
  open_state st. unfold step_sp. simpl.
  destruct pc_sp as [|albums i n|].
  - (* the client call *)
    assert (Ha0 : (sp.SearchAlbums spClient q).1 = albums0) by reflexivity.
    destruct (sp.SearchAlbums spClient q) as [albums [e|]]; simpl in Ha0; subst albums;
      (eexists; split; [reflexivity|]; simpl;
       split; [split; [|split; [|split]]|]; frame).
    all: try (by rewrite albums_after_0; repeat split; try lia).
    all: counts.
  - destruct Hsp as (-> & Hi & -> & Htr).
    destruct (Nat.ltb_spec i (length (sp.Albums albums0))) as [Hlt|Hge].
    + (* one iteration *)
      simpl. rewrite lookup_partly_normalized.
      destruct (lookup_lt_is_Some_2 (sp.Albums albums0) i Hlt) as [a Ha]. rewrite Ha. simpl.
      rewrite truncate_60. eexists; split; [reflexivity|]; simpl.
      split; [split; [|split; [|split]]|]; frame; [|counts].
      repeat split; [lia | by apply albums_after_S |].
      rewrite Htr, (take_S_r _ _ _ Ha), fmap_app. reflexivity.
    + (* the end of the loop, [s = albums] and the deferred wg.Done() *)
      assert (i = length (sp.Albums albums0)) as -> by lia.
      unfold Done. destruct (Z.ltb_spec (wg0 - 1) 0) as [Hneg|Hok].
      { exfalso. revert Hwg Hneg. clear.
        repeat match goal with |- context [match ?x with _ => _ end] => destruct x end; lia. }
      eexists; split; [reflexivity|]; simpl.
      rewrite ?Nat.sub_diag in Hwg.
      split; [split; [|split; [|split]]|]; frame; [|lia|counts].
      split; [reflexivity|]. by rewrite Htr, firstn_all.
  - (* returned *)
    eexists; split; [reflexivity|]; simpl.
    split; [split; [|split; [|split]]|]; frame; counts.
Qed.

Lemma step_inv who st :
  inv st → ∃ st', step who st = Some st' ∧ inv st' ∧ one_step_less who st st'.
Proof.
  destruct who; [apply step_rt_inv | apply step_gr_inv | apply step_sp_inv].
Qed.

Lemma turns_cons who x sched :
  turns who (x :: sched) =
  ((if goroutine_eqb who x then 1 else 0) + turns who sched)%nat.
Proof.
  unfold turns. rewrite filter_cons.
  destruct (goroutine_eqb who x); case_decide; simpl; congruence.
Qed.

(** ** Whole runs *)

(** No schedule makes a goroutine panic, and each goroutine advances by
    the number of turns the schedule gives it. *)
Lemma run_inv sched st :
  inv st →
  ∃ st', run sched st = Some st' ∧ inv st' ∧
         ∀ who, todo who st' = (todo who st - turns who sched)%nat.
Proof.
  revert st. induction sched as [|x sched IH]; intros st Hinv.
  - exists st. split; [reflexivity|]. split; [assumption|].
    intros who. unfold turns. simpl. lia.
  - destruct (step_inv x st Hinv) as (st1 & Hstep & Hinv1 & Hless).
    destruct (IH st1 Hinv1) as (st' & Hrun & Hinv' & Htodo).
    exists st'. simpl. rewrite Hstep. simpl. split; [assumption|]. split; [assumption|].
    intros who. rewrite Htodo, Hless, turns_cons.
    destruct (goroutine_eqb who x); lia.
Qed.

Lemma start_inv : inv start.
Proof. repeat split. Qed.

Lemma todo_start who : todo who start = steps_of who.
Proof. now destruct who. Qed.

(** When no goroutine has a step left, the state is [finished]. *)
Lemma inv_finished st : inv st → (∀ who, todo who st = 0%nat) → finished st.
Proof.
  intros (Hrt & Hgr & Hsp & Hwg) Hdone.
  pose proof (Hdone go_rt) as H1. pose proof (Hdone go_gr) as H2.
  pose proof (Hdone go_sp) as H3.
  unfold finished, rt_inv, gr_inv, sp_inv, running in *. rewrite H1, H2, H3 in Hwg.
  simpl in H1, H2, H3.
  destruct (at_rt st); try discriminate.
  destruct (at_gr st); try discriminate.
  destruct (at_sp st); try discriminate.
  destruct Hrt, Hgr, Hsp. repeat split; assumption.
Qed.

(** The wait group reaches zero only when every goroutine has returned. *)
Lemma inv_wg_zero st : inv st → wg st = 0 → ∀ who, todo who st = 0%nat.
Proof.
  intros (_ & _ & _ & Hwg) H0 who. unfold running in Hwg.
  destruct (todo go_rt st) eqn:E1, (todo go_gr st) eqn:E2, (todo go_sp st) eqn:E3;
    try lia.
  now destruct who.
Qed.

Lemma run_complete sched :
  complete sched → ∃ st, run sched start = Some st ∧ finished st.
Proof.
  intros (Hrt & Hgr & Hsp).
  destruct (run_inv sched start start_inv) as (st & Hrun & Hinv & Htodo).
  exists st. split; [assumption|]. apply inv_finished; [assumption|].
  intros who. rewrite Htodo, todo_start. destruct who; lia.
Qed.

Lemma Search_complete sched :
  complete sched →
  ∃ st, run sched start = Some st ∧ finished st ∧
        Search sched = Returned (m st) (g st) (s st).
Proof.
  intros Hc. destruct (run_complete sched Hc) as (st & Hrun & Hfin).
  exists st. split; [assumption|]. split; [assumption|].
  unfold Search. rewrite Hrun. destruct Hfin as [-> _]. reflexivity.
Qed.

Lemma turns_app who sched1 sched2 :
  turns who (sched1 ++ sched2) = (turns who sched1 + turns who sched2)%nat.
Proof. unfold turns. now rewrite filter_app, length_app. Qed.

Lemma turns_replicate who x n :
  turns who (replicate n x) = if goroutine_eqb who x then n else 0%nat.
Proof.
  induction n as [|n IH]; simpl replicate.
  - now destruct (goroutine_eqb who x).
  - rewrite turns_cons, IH. now destruct (goroutine_eqb who x).
Qed.

(** Every call has complete schedules: running the goroutines one after
    the other, each for as many steps as the longest needs, is one. *)
Lemma complete_one_by_one n :
  (steps_of go_rt <= n)%nat → (steps_of go_gr <= n)%nat → (steps_of go_sp <= n)%nat →
  complete (one_by_one n).
Proof.
  intros Hrt Hgr Hsp. unfold complete, one_by_one.
  rewrite !turns_app, !turns_replicate. cbn [goroutine_eqb]. lia.
Qed.

Lemma Search_never_panics sched : Search sched ≠ Panicked.
Proof.
  destruct (run_inv sched start start_inv) as (st & Hrun & _).
  unfold Search. rewrite Hrun. now destruct (wg st =? 0).
Qed.

(** Whatever the schedule, a bundle that [Search] returns is the finished one. *)
Lemma Search_Returned sched m1 g1 s1 :
  Search sched = Returned m1 g1 s1 →
  ∃ st, run sched start = Some st ∧ finished st ∧ m1 = m st ∧ g1 = g st ∧ s1 = s st.
Proof.
  destruct (run_inv sched start start_inv) as (st & Hrun & Hinv & _).
  unfold Search. rewrite Hrun. destruct (Z.eqb_spec (wg st) 0) as [H0|]; [|discriminate].
  intros [= <- <- <-]. exists st. split; [reflexivity|].
  split; [|repeat split].
  apply inv_finished; [assumption|]. now apply inv_wg_zero.
Qed.
End Machine.

(** * The normalizer *)

(** C10.  For every [s], [suf] and bound [l >= 0], [truncate] returns a
    string and does not panic: when the comparison [len(s) < l] fails the
    index [l] is within [0 .. len(s)], so the slice [s[:l]] is defined. *)
Theorem truncate_total (s suf : string) (l : Z) :
  0 <= l →
  (∃ r, truncate s suf l = Some r) ∧
  (¬ len s < l → slice_to s l = Some (take_bytes (Z.to_nat l) s)).
Proof.
  intros Hl. split.
  - apply truncate_is_Some, Hl.
  - intros Hge. apply slice_to_in_range. lia.
Qed.

Lemma truncate_total_witness :
  0 <= 60 ∧
  (∃ r, truncate long_title "..." 60 = Some r) ∧
  (¬ len long_title < 60 →
   slice_to long_title 60 = Some (take_bytes (Z.to_nat 60) long_title)).
Proof. split; [lia | apply (truncate_total long_title "..." 60); lia]. Defined.

(** C4, as stated, fails.  The code counts bytes.  [two_accents] is two
    characters in four bytes: with bound 3 the rule in characters leaves
    it alone, while the code cuts after the third byte, in the middle of
    the second character, and appends the suffix.  And a negative bound
    makes the slice panic instead of returning. *)
Lemma truncate_counts_bytes :
  truncate two_accents "..." 3 ≠ Some (truncate_spec_chars two_accents "..." 3) ∧
  truncate_spec_chars two_accents "..." 3 = two_accents ∧
  truncate two_accents "..." 3 =
    Some (e_acute +:+ String (ascii_of_nat 195) "...") ∧
  truncate "Alien" "..." (-1) = None.
Proof. vm_compute. repeat split; congruence. Qed.

(** C4, amended.  Lengths are byte counts.  For every [s], [suf] and
    bound [l >= 0], [truncate] returns [s] unchanged when [s] has fewer
    than [l] bytes, and the first [l] bytes of [s] followed by [suf] when
    [s] has more than [l] bytes. *)
Theorem truncate_by_bytes (s suf : string) (l : Z) :
  0 <= l →
  (len s < l → truncate s suf l = Some s) ∧
  (l < len s → truncate s suf l = Some (take_bytes (Z.to_nat l) s +:+ suf)).
Proof.
  intros Hl. split; intros Hs.
  - now apply truncate_short.
  - apply truncate_long. lia.
Qed.

Lemma truncate_by_bytes_witness :
  0 <= 60 ∧
  (len "Alien" < 60 → truncate "Alien" "..." 60 = Some "Alien") ∧
  (60 < len long_title →
   truncate long_title "..." 60 =
   Some ("The Extraordinarily Long Title That Exceeds Sixty Characters" +:+ "...")).
Proof.
  split; [lia|]. split.
  - apply (truncate_by_bytes "Alien" "..." 60). lia.
  - apply (truncate_by_bytes long_title "..." 60). lia.
Defined.

(** C5.  At a title whose length is exactly the bound the code takes the
    second branch: nothing is cut off, and the suffix is appended. *)
Theorem truncate_at_exact_length :
  truncate "abc" "..." 3 = Some "abc..." ∧
  ∀ s suf : string, truncate s suf (len s) = Some (s +:+ suf).
Proof.
  split; [reflexivity|]. intros s suf.
  rewrite truncate_long by (pose proof (len_nonneg s); lia).
  unfold len. now rewrite Nat2Z.id, take_bytes_all.
Qed.

(** C6.  Truncating the result of [truncate] again, with the same suffix
    and bound, gives the same result; [≫=] passes a result on and
    propagates a panic. *)
Theorem truncate_idempotent (s suf : string) (l : Z) :
  truncate s suf l ≫= (λ r, truncate r suf l) = truncate s suf l.
Proof.
  destruct (truncate s suf l) as [r|] eqn:Hr; simpl; [|reflexivity].
  now apply truncate_fixed in Hr.
Qed.

Example truncate_long_title :
  truncate long_title "..." 60 =
  Some "The Extraordinarily Long Title That Exceeds Sixty Characters..." ∧
  truncate "The Extraordinarily Long Title That Exceeds Sixty Characters..." "..." 60 =
  Some "The Extraordinarily Long Title That Exceeds Sixty Characters...".
Proof. split; reflexivity. Qed.

(** * The aggregator *)

Section Bundle.
Context `{LibraryFields}.

Lemma normalized_movie_lookup (movies : list rt.Movie) i mov :
  movies !! i = Some mov →
  ∃ t, truncate (rt.Title mov) "..." 60 = Some t ∧
       (normalize_movie <$> movies) !! i = Some (rt.set_Title t mov).
Proof.
  intros Hi. exists (ellipsis60 (rt.Title mov)). split; [apply truncate_60|].
  now rewrite list_lookup_fmap, Hi.
Qed.

Lemma normalized_work_lookup (ws : list gr.Work) i w :
  ws !! i = Some w →
  ∃ t, truncate (gr.Title (gr.BestBook w)) "..." 60 = Some t ∧
       (normalize_work <$> ws) !! i = Some (gr.set_Title t w).
Proof.
  intros Hi. exists (ellipsis60 (gr.Title (gr.BestBook w))). split; [apply truncate_60|].
  now rewrite list_lookup_fmap, Hi.
Qed.

Lemma normalized_album_lookup (xs : list sp.Album) i a :
  xs !! i = Some a →
  ∃ t, truncate (sp.Name a) "..." 60 = Some t ∧
       (normalize_album <$> xs) !! i = Some (sp.set_Name t a).
Proof.
  intros Hi. exists (ellipsis60 (sp.Name a)). split; [apply truncate_60|].
  now rewrite list_lookup_fmap, Hi.
Qed.

Lemma books_after_all (books : gr.GoodreadsResponse) :
  gr.Works (gr.Search (books_after (length (gr.Works (gr.Search books))) books)) =
  normalize_work <$> gr.Works (gr.Search books).
Proof. simpl. now rewrite firstn_all, drop_all, app_nil_r. Qed.

Lemma albums_after_all (albums : sp.SearchAlbumsResponse) :
  sp.Albums (albums_after (length (sp.Albums albums)) albums) =
  normalize_album <$> sp.Albums albums.
Proof. simpl. now rewrite firstn_all, drop_all, app_nil_r. Qed.

(** A response without works, or without albums, is stored as it is. *)
Lemma books_after_empty (books : gr.GoodreadsResponse) :
  gr.Works (gr.Search books) = [] →
  books_after (length (gr.Works (gr.Search books))) books = books.
Proof. destruct books as [[ws r] r']. simpl. now intros ->. Qed.

Lemma albums_after_empty (albums : sp.SearchAlbumsResponse) :
  sp.Albums albums = [] →
  albums_after (length (sp.Albums albums)) albums = albums.
Proof. destruct albums as [xs r]. simpl. now intros ->. Qed.

(** The titles of a normalized list are the results of [truncate] on the
    original titles, position by position. *)
Lemma normalized_titles {A} (title : A → string) (norm : A → A) (l : list A) :
  (∀ x, title (norm x) = ellipsis60 (title x)) →
  Some <$> (title <$> (norm <$> l)) = (λ t, truncate t "..." 60) <$> (title <$> l).
Proof.
  intros Hn. induction l as [|x l IH]; [reflexivity|].
  rewrite !fmap_cons, IH, Hn, truncate_60. reflexivity.
Qed.

Variable q : string.
Variable rtClient : rt.RottenTomatoes.
Variable grClient : gr.Goodreads.
Variable spClient : sp.Spotify.

(** C3.  Whatever the three clients return, errors included, and in
    whatever order the goroutines are scheduled, once each goroutine has
    run to its end [Search] returns its three results: it has no error
    result and no source failure makes it panic or block. *)
Theorem Search_returns (sched : list goroutine) :
  complete q rtClient grClient spClient sched →
  ∃ m g s, Search q rtClient grClient spClient sched = Returned m g s.
Proof.
  intros Hc. destruct (Search_complete q rtClient grClient spClient sched Hc)
    as (st & _ & _ & HS).
  eauto.
Qed.

(** C1, amended.  For every query and every outcome of the three clients
    the bundle [Search] returns has one slot per source, none missing and
    the call never aborted, and each slot holds exactly one item per item
    of the payload its client returned, with or without an error: the
    slot of a failing source is empty when, and only when, the client
    returned an empty payload with its error. *)
Theorem Search_one_slot_per_source (sched : list goroutine) :
  complete q rtClient grClient spClient sched →
  ∃ m g s,
    Search q rtClient grClient spClient sched = Returned m g s ∧
    length m = length (rt.SearchMovies rtClient q).1 ∧
    length (gr.Works (gr.Search g)) =
      length (gr.Works (gr.Search (gr.SearchBooks grClient q).1)) ∧
    length (sp.Albums s) = length (sp.Albums (sp.SearchAlbums spClient q).1).
Proof.
  intros Hc. destruct (Search_complete q rtClient grClient spClient sched Hc)
    as (st & _ & (_ & Hm & Hg & Hs & _) & HS).
  exists (m st), (g st), (s st). split; [exact HS|].
  rewrite Hm, Hg, Hs. unfold works0, books0, albums0, movies0.
  rewrite books_after_all, albums_after_all, !length_fmap. auto.
Qed.

(** C2, amended.  A source whose client returns an error together with
    an empty payload gets that empty payload in its slot ([Search] stores
    what the client returned and does not clear it on an error), and a
    failure never reaches the other slots: each slot is determined by the
    payload of its own client, so it is the same in any other call in
    which that client returns the same payload, whatever the other two
    clients do there. *)
Theorem Search_failure_is_local
    (rtClient' : rt.RottenTomatoes) (grClient' : gr.Goodreads)
    (spClient' : sp.Spotify) (sched sched' : list goroutine) :
  complete q rtClient grClient spClient sched →
  complete q rtClient' grClient' spClient' sched' →
  ∃ m g s m' g' s',
    Search q rtClient grClient spClient sched = Returned m g s ∧
    Search q rtClient' grClient' spClient' sched' = Returned m' g' s' ∧
    ((rt.SearchMovies rtClient q).1 = [] → m = []) ∧
    (gr.Works (gr.Search (gr.SearchBooks grClient q).1) = [] →
     g = (gr.SearchBooks grClient q).1) ∧
    (sp.Albums (sp.SearchAlbums spClient q).1 = [] →
     s = (sp.SearchAlbums spClient q).1) ∧
    ((rt.SearchMovies rtClient' q).1 = (rt.SearchMovies rtClient q).1 → m' = m) ∧
    ((gr.SearchBooks grClient' q).1 = (gr.SearchBooks grClient q).1 → g' = g) ∧
    ((sp.SearchAlbums spClient' q).1 = (sp.SearchAlbums spClient q).1 → s' = s).
Proof.
  intros Hc Hc'.
  destruct (Search_complete q rtClient grClient spClient sched Hc)
    as (st & _ & (_ & Hm & Hg & Hs & _) & HS).
  destruct (Search_complete q rtClient' grClient' spClient' sched' Hc')
    as (st' & _ & (_ & Hm' & Hg' & Hs' & _) & HS').
  exists (m st), (g st), (s st), (m st'), (g st'), (s st').
  split; [exact HS|]. split; [exact HS'|].
  rewrite Hm, Hg, Hs, Hm', Hg', Hs'. unfold works0, books0, albums0, movies0.
  repeat split.
  - now intros ->.
  - apply books_after_empty.
  - apply albums_after_empty.
  - now intros ->.
  - now intros ->.
  - now intros ->.
Qed.

(** C7.  For every source whose client call succeeds, the slot has as
    many items as the client returned, and its item at each position is
    the client's item at that position with its title truncated: nothing
    is reordered, and a slot holds items of its own source only. *)
Theorem Search_preserves_order (sched : list goroutine) :
  complete q rtClient grClient spClient sched →
  ∃ m g s,
    Search q rtClient grClient spClient sched = Returned m g s ∧
    (∀ movies, rt.SearchMovies rtClient q = (movies, None) →
       length m = length movies ∧
       ∀ i mov, movies !! i = Some mov →
         ∃ t, truncate (rt.Title mov) "..." 60 = Some t ∧
              m !! i = Some (rt.set_Title t mov)) ∧
    (∀ books, gr.SearchBooks grClient q = (books, None) →
       length (gr.Works (gr.Search g)) = length (gr.Works (gr.Search books)) ∧
       ∀ i w, gr.Works (gr.Search books) !! i = Some w →
         ∃ t, truncate (gr.Title (gr.BestBook w)) "..." 60 = Some t ∧
              gr.Works (gr.Search g) !! i = Some (gr.set_Title t w)) ∧
    (∀ albums, sp.SearchAlbums spClient q = (albums, None) →
       length (sp.Albums s) = length (sp.Albums albums) ∧
       ∀ i a, sp.Albums albums !! i = Some a →
         ∃ t, truncate (sp.Name a) "..." 60 = Some t ∧
              sp.Albums s !! i = Some (sp.set_Name t a)).
Proof.
  intros Hc. destruct (Search_complete q rtClient grClient spClient sched Hc)
    as (st & _ & (_ & Hm & Hg & Hs & _) & HS).
  exists (m st), (g st), (s st). split; [exact HS|].
  rewrite Hm, Hg, Hs. unfold works0, books0, albums0, movies0.
  rewrite books_after_all, albums_after_all.
  split; [|split]; intros payload ->; simpl; rewrite length_fmap;
    (split; [reflexivity|]).
  - apply normalized_movie_lookup.
  - apply normalized_work_lookup.
  - apply normalized_album_lookup.
Qed.

(** C8.  For every source whose client call succeeds, every field other
    than the display title is in the bundle as the client returned it:
    the rest of each movie, of each work and of its best book, of the
    results and of the response, of each album and of the albums
    response.  The title of each item is the result of [truncate] on the
    title the client returned. *)
Theorem Search_changes_titles_only (sched : list goroutine) :
  complete q rtClient grClient spClient sched →
  ∃ m g s,
    Search q rtClient grClient spClient sched = Returned m g s ∧
    (∀ movies, rt.SearchMovies rtClient q = (movies, None) →
       rt.rest <$> m = rt.rest <$> movies ∧
       Some <$> (rt.Title <$> m) = (λ t, truncate t "..." 60) <$> (rt.Title <$> movies)) ∧
    (∀ books, gr.SearchBooks grClient q = (books, None) →
       gr.response_rest g = gr.response_rest books ∧
       gr.results_rest (gr.Search g) = gr.results_rest (gr.Search books) ∧
       gr.work_rest <$> gr.Works (gr.Search g) =
         gr.work_rest <$> gr.Works (gr.Search books) ∧
       (gr.book_rest ∘ gr.BestBook) <$> gr.Works (gr.Search g) =
         (gr.book_rest ∘ gr.BestBook) <$> gr.Works (gr.Search books) ∧
       Some <$> ((gr.Title ∘ gr.BestBook) <$> gr.Works (gr.Search g)) =
         (λ t, truncate t "..." 60) <$>
           ((gr.Title ∘ gr.BestBook) <$> gr.Works (gr.Search books))) ∧
    (∀ albums, sp.SearchAlbums spClient q = (albums, None) →
       sp.albums_rest s = sp.albums_rest albums ∧
       sp.album_rest <$> sp.Albums s = sp.album_rest <$> sp.Albums albums ∧
       Some <$> (sp.Name <$> sp.Albums s) =
         (λ t, truncate t "..." 60) <$> (sp.Name <$> sp.Albums albums)).
Proof.
  intros Hc. destruct (Search_complete q rtClient grClient spClient sched Hc)
    as (st & _ & (_ & Hm & Hg & Hs & _) & HS).
  exists (m st), (g st), (s st). split; [exact HS|].
  rewrite Hm, Hg, Hs. unfold works0, books0, albums0, movies0.
  rewrite books_after_all, albums_after_all.
  split; [|split]; intros payload ->; simpl.
  - split; [now rewrite <- list_fmap_compose|]. now apply normalized_titles.
  - repeat split; try (now rewrite <- list_fmap_compose).
    now apply (normalized_titles (gr.Title ∘ gr.BestBook) normalize_work).
  - repeat split; [now rewrite <- list_fmap_compose|]. now apply normalized_titles.
Qed.

(** C9.  For every source whose client call succeeds, the goroutine of
    that source calls [truncate] on the title of each item the client
    returned, once each and in order, and the titles in its slot of the
    bundle are the results of exactly these calls. *)
Theorem Search_truncates_once (sched : list goroutine) :
  complete q rtClient grClient spClient sched →
  ∃ st,
    run q rtClient grClient spClient sched start = Some st ∧
    Search q rtClient grClient spClient sched = Returned (m st) (g st) (s st) ∧
    (∀ movies, rt.SearchMovies rtClient q = (movies, None) →
       truncated_by go_rt st = rt.Title <$> movies ∧
       Some <$> (rt.Title <$> m st) =
         (λ t, truncate t "..." 60) <$> truncated_by go_rt st) ∧
    (∀ books, gr.SearchBooks grClient q = (books, None) →
       truncated_by go_gr st = (gr.Title ∘ gr.BestBook) <$> gr.Works (gr.Search books) ∧
       Some <$> ((gr.Title ∘ gr.BestBook) <$> gr.Works (gr.Search (g st))) =
         (λ t, truncate t "..." 60) <$> truncated_by go_gr st) ∧
    (∀ albums, sp.SearchAlbums spClient q = (albums, None) →
       truncated_by go_sp st = sp.Name <$> sp.Albums albums ∧
       Some <$> (sp.Name <$> sp.Albums (s st)) =
         (λ t, truncate t "..." 60) <$> truncated_by go_sp st).
Proof.
  intros Hc. destruct (Search_complete q rtClient grClient spClient sched Hc)
    as (st & Hrun & (_ & Hm & Hg & Hs & Hrt & Hgr & Hsp) & HS).
  exists st. split; [exact Hrun|]. split; [exact HS|].
  rewrite Hm, Hg, Hs, Hrt, Hgr, Hsp. unfold works0, books0, albums0, movies0.
  rewrite books_after_all, albums_after_all.
  split; [|split]; intros payload ->; simpl; (split; [reflexivity|]).
  - now apply normalized_titles.
  - now apply (normalized_titles (gr.Title ∘ gr.BestBook) normalize_work).
  - now apply normalized_titles.
Qed.
End Bundle.

(** ** The statements on the sample data *)

Local Ltac enough_turns := repeat split; vm_compute; lia.

Lemma Search_returns_witness :
  complete "alien" rt_down gr_down sp_down (round_robin 2) ∧
  ∃ m g s, Search "alien" rt_down gr_down sp_down (round_robin 2) = Returned m g s.
Proof.
  split; [enough_turns|].
  apply (Search_returns "alien" rt_down gr_down sp_down (round_robin 2)).
  enough_turns.
Defined.

(** C1, as stated, fails.  The movie client fails after decoding one
    movie and returns it with the error; [Search] prints the error and
    still normalizes and stores the movie, so the slot of the failing
    source is not empty. *)
Lemma Search_failing_source_slot_not_empty :
  (rt.SearchMovies rt_partial "alien").2 = Some "unexpected end of JSON input" ∧
  Search "alien" rt_partial gr_down sp_down (round_robin 3) =
    Returned [alien] gr.zero sp.zero ∧
  ¬ (∃ m g s,
       Search "alien" rt_partial gr_down sp_down (round_robin 3) = Returned m g s ∧
       ((rt.SearchMovies rt_partial "alien").2 ≠ None → m = [])).
Proof.
  split; [reflexivity|]. split; [reflexivity|].
  intros (m & g & s & HS & Hempty).
  change (Returned [alien] gr.zero sp.zero = Returned m g s) in HS.
  injection HS as <- _ _. discriminate Hempty. discriminate.
Qed.

Lemma Search_one_slot_per_source_witness :
  complete "alien" rt_partial gr_down sp_ok (round_robin 4) ∧
  ∃ m g s,
    Search "alien" rt_partial gr_down sp_ok (round_robin 4) = Returned m g s ∧
    length m = 1%nat ∧ length (gr.Works (gr.Search g)) = 0%nat ∧
    length (sp.Albums s) = 2%nat.
Proof.
  split; [enough_turns|].
  apply (Search_one_slot_per_source "alien" rt_partial gr_down sp_ok (round_robin 4)).
  enough_turns.
Defined.

(** C2, as stated, fails.  The books client returns an error together
    with the one work it had decoded; the books slot of the bundle holds
    that work, not an empty collection. *)
Lemma Search_failing_source_keeps_payload :
  (gr.SearchBooks gr_partial "dune").2 = Some "XML syntax error" ∧
  Search "dune" rt_down gr_partial sp_down (one_by_one 3) =
    Returned [] (books_found [dune]) sp.zero ∧
  ¬ (∃ m g s,
       Search "dune" rt_down gr_partial sp_down (one_by_one 3) = Returned m g s ∧
       ((gr.SearchBooks gr_partial "dune").2 ≠ None → gr.Works (gr.Search g) = [])).
Proof.
  split; [reflexivity|]. split; [reflexivity|].
  intros (m & g & s & HS & Hempty).
  change (Returned [] (books_found [dune]) sp.zero = Returned m g s) in HS.
  injection HS as _ <- _. discriminate Hempty. discriminate.
Qed.

(** The books client is down in the first call and up in the second; the
    movies and albums slots are the same in both. *)
Lemma Search_failure_is_local_witness :
  complete "dune" rt_ok gr_down sp_ok (round_robin 4) ∧
  complete "dune" rt_ok gr_ok sp_ok (one_by_one 4) ∧
  ∃ m g s m' g' s',
    Search "dune" rt_ok gr_down sp_ok (round_robin 4) = Returned m g s ∧
    Search "dune" rt_ok gr_ok sp_ok (one_by_one 4) = Returned m' g' s' ∧
    g = gr.zero ∧ m' = m ∧ s' = s.
Proof.
  split; [enough_turns|]. split; [enough_turns|].
  destruct (Search_failure_is_local "dune" rt_ok gr_down sp_ok rt_ok gr_ok sp_ok
              (round_robin 4) (one_by_one 4))
    as (m & g & s & m' & g' & s' & HS & HS' & _ & Hg & _ & Hm & _ & Hs);
    [enough_turns | enough_turns |].
  exists m, g, s, m', g', s'.
  split; [exact HS|]. split; [exact HS'|].
  split; [exact (Hg eq_refl)|]. split; [exact (Hm eq_refl) | exact (Hs eq_refl)].
Defined.

Lemma Search_preserves_order_witness :
  complete "dune" rt_ok gr_ok sp_ok (one_by_one 4) ∧
  ∃ m g s,
    Search "dune" rt_ok gr_ok sp_ok (one_by_one 4) = Returned m g s ∧
    (∃ t, truncate long_title "..." 60 = Some t ∧
          m !! 1%nat = Some (rt.set_Title t long_movie)) ∧
    (∃ t, truncate long_title "..." 60 = Some t ∧
          gr.Works (gr.Search g) !! 0%nat = Some (gr.set_Title t long_book)) ∧
    (∃ t, truncate "Kind of Blue" "..." 60 = Some t ∧
          sp.Albums s !! 0%nat = Some (sp.set_Name t kind_of_blue)).
Proof.
  split; [enough_turns|].
  destruct (Search_preserves_order "dune" rt_ok gr_ok sp_ok (one_by_one 4))
    as (m & g & s & HS & Hm & Hg & Hs); [enough_turns|].
  exists m, g, s. split; [exact HS|].
  split; [|split].
  - exact (proj2 (Hm _ eq_refl) 1%nat long_movie eq_refl).
  - exact (proj2 (Hg _ eq_refl) 0%nat long_book eq_refl).
  - exact (proj2 (Hs _ eq_refl) 0%nat kind_of_blue eq_refl).
Defined.

Lemma Search_changes_titles_only_witness :
  complete "dune" rt_ok gr_ok sp_ok (round_robin 4) ∧
  ∃ m g s,
    Search "dune" rt_ok gr_ok sp_ok (round_robin 4) = Returned m g s ∧
    rt.rest <$> m = ["770672122"; "12"] ∧
    gr.response_rest g = "search" ∧
    gr.work_rest <$> gr.Works (gr.Search g) = [2001%nat; 1965%nat] ∧
    sp.album_rest <$> sp.Albums s = ["spotify:album:1"; "spotify:album:2"].
Proof.
  split; [enough_turns|].
  destruct (Search_changes_titles_only "dune" rt_ok gr_ok sp_ok (round_robin 4))
    as (m & g & s & HS & Hm & Hg & Hs); [enough_turns|].
  exists m, g, s. split; [exact HS|].
  split; [exact (proj1 (Hm _ eq_refl))|].
  split; [exact (proj1 (Hg _ eq_refl))|].
  split; [exact (proj1 (proj2 (proj2 (Hg _ eq_refl)))) | exact (proj1 (proj2 (Hs _ eq_refl)))].
Defined.

Lemma Search_truncates_once_witness :
  complete "dune" rt_ok gr_ok sp_ok (round_robin 4) ∧
  ∃ st,
    run "dune" rt_ok gr_ok sp_ok (round_robin 4) start = Some st ∧
    truncated_by go_rt st = ["Alien"; long_title] ∧
    truncated_by go_gr st = [long_title; "Dune"] ∧
    truncated_by go_sp st = ["Kind of Blue"; long_title].
Proof.
  split; [enough_turns|].
  destruct (Search_truncates_once "dune" rt_ok gr_ok sp_ok (round_robin 4))
    as (st & Hrun & _ & Hm & Hg & Hs); [enough_turns|].
  exists st. split; [exact Hrun|].
  split; [exact (proj1 (Hm _ eq_refl))|].
  split; [exact (proj1 (Hg _ eq_refl)) | exact (proj1 (Hs _ eq_refl))].
Defined.

(** Two sources up and the books source down: its error is printed, its
    slot is the zero response, the long titles are cut at 60 bytes. *)
Example Search_books_down :
  stdout <$> run "dune" rt_ok gr_down sp_ok (round_robin 4) start =
    Some ["ERROR (gr):  connection refused"] ∧
  Search "dune" rt_ok gr_down sp_ok (round_robin 4) =
    Returned
      [alien;
       rt.set_Title "The Extraordinarily Long Title That Exceeds Sixty Characters..."
         long_movie]
      gr.zero
      (albums_found
         [kind_of_blue;
          sp.set_Name "The Extraordinarily Long Title That Exceeds Sixty Characters..."
            long_album]).
Proof. split; vm_compute; reflexivity. Qed.

(** All three sources down: three errors printed, three empty slots, and
    [Search] returns. *)
Example Search_all_down :
  stdout <$> run "dune" rt_down gr_down sp_down (one_by_one 2) start =
    Some ["ERROR (rt):  connection refused";
          "ERROR (gr):  connection refused";
          "ERROR (sp):  connection refused"] ∧
  Search "dune" rt_down gr_down sp_down (one_by_one 2) = Returned [] gr.zero sp.zero.
Proof. split; vm_compute; reflexivity. Qed.

(** While a goroutine still has steps to take, [Search] waits. *)
Example Search_waits :
  Search "dune" rt_ok gr_ok sp_ok (round_robin 3) = Blocked.
Proof. vm_compute. reflexivity. Qed.


(** * More about the normalizer *)

(** X1.  [truncate] panics exactly when the bound is negative. *)
Theorem truncate_panics_iff_negative (s suf : string) (l : Z) :
  truncate s suf l = None ↔ l < 0.
Proof.
  split.
  - intros Hnone. destruct (Z.lt_ge_cases l 0) as [Hneg|Hpos]; [exact Hneg|].
    destruct (truncate_is_Some s suf l) as [r Hr]; [lia | congruence].
  - apply truncate_negative.
Qed.

(** X2.  A result of [truncate] has at most [l] bytes of the title and
    the suffix: it is never longer than [l + len(suf)], and never shorter
    than the smaller of [len(s)] and [l]. *)
Theorem truncate_length_bounds (s suf r : string) (l : Z) :
  truncate s suf l = Some r →
  Z.min (len s) l <= len r <= l + len suf.
Proof.
  destruct (Z.lt_ge_cases l 0) as [Hneg|Hpos].
  { rewrite truncate_negative; [discriminate | exact Hneg]. }
  pose proof (len_nonneg suf) as Hsuf.
  destruct (Z.lt_ge_cases (len s) l) as [Hs|Hs].
  - rewrite truncate_short by exact Hs. intros [= <-]. lia.
  - rewrite truncate_long by lia. intros [= <-].
    rewrite len_append.
    assert (len (take_bytes (Z.to_nat l) s) = l) as ->.
    { unfold len in *. rewrite length_take_bytes; lia. }
    lia.
Qed.

Lemma truncate_length_bounds_witness :
  truncate long_title "..." 60 =
    Some "The Extraordinarily Long Title That Exceeds Sixty Characters..." ∧
  Z.min (len long_title) 60
    <= len "The Extraordinarily Long Title That Exceeds Sixty Characters..."
    <= 60 + len "...".
Proof.
  split; [reflexivity|].
  apply (truncate_length_bounds long_title "..." _ 60). reflexivity.
Defined.

(** X3.  [truncate] never alters the first [l] bytes of the title: the
    result and the title agree on them. *)
Theorem truncate_keeps_prefix (s suf r : string) (l : Z) :
  truncate s suf l = Some r →
  take_bytes (Z.to_nat l) r = take_bytes (Z.to_nat l) s.
Proof.
  destruct (Z.lt_ge_cases l 0) as [Hneg|Hpos].
  { rewrite truncate_negative; [discriminate | exact Hneg]. }
  destruct (Z.lt_ge_cases (len s) l) as [Hs|Hs].
  - rewrite truncate_short by exact Hs. now intros [= <-].
  - rewrite truncate_long by lia. intros [= <-].
    apply take_bytes_append. unfold len in Hs. lia.
Qed.

Lemma truncate_keeps_prefix_witness :
  truncate long_title "..." 60 =
    Some "The Extraordinarily Long Title That Exceeds Sixty Characters..." ∧
  take_bytes (Z.to_nat 60)
    "The Extraordinarily Long Title That Exceeds Sixty Characters..." =
  take_bytes (Z.to_nat 60) long_title.
Proof.
  split; [reflexivity|].
  apply (truncate_keeps_prefix long_title "..." _ 60). reflexivity.
Defined.

Lemma ascii_not_continuation (c : ascii) :
  (nat_of_ascii c <? 128)%nat = true → is_continuation c = false.
Proof.
  intros Hc%Nat.ltb_lt. unfold is_continuation.
  destruct (Nat.leb_spec 128 (nat_of_ascii c)); [lia | reflexivity].
Qed.

Lemma char_count_ascii (s : string) :
  all_ascii s = true → char_count s = String.length s.
Proof.
  induction s as [|c s IH]; simpl; [reflexivity|].
  intros [Hc Hs]%andb_prop. rewrite (ascii_not_continuation c Hc). now rewrite IH.
Qed.

Lemma take_chars_ascii (n : nat) (s : string) :
  all_ascii s = true → take_chars n s = take_bytes n s.
Proof.
  revert n. induction s as [|c s IH]; intros n; simpl.
  - now destruct n.
  - intros [Hc Hs]%andb_prop. rewrite (ascii_not_continuation c Hc).
    destruct n as [|n]; [reflexivity|]. now rewrite IH.
Qed.

(** X4.  On a title made of ASCII bytes only, where bytes and characters
    coincide, [truncate] with a bound [l >= 0] computes the rule in
    characters: the title unchanged when it has fewer than [l]
    characters, else its first [l] characters and the suffix. *)
Theorem truncate_ascii_by_chars (s suf : string) (l : Z) :
  all_ascii s = true → 0 <= l →
  truncate s suf l = Some (truncate_spec_chars s suf l).
Proof.
  intros Hs Hl. unfold truncate_spec_chars.
  rewrite (char_count_ascii s Hs), (take_chars_ascii _ s Hs). fold (len s).
  destruct (Z.ltb_spec (len s) l) as [Hlt|Hge].
  - now apply truncate_short.
  - apply truncate_long. lia.
Qed.

Lemma truncate_ascii_by_chars_witness :
  all_ascii long_title = true ∧ 0 <= 60 ∧
  truncate long_title "..." 60 = Some (truncate_spec_chars long_title "..." 60).
Proof.
  split; [reflexivity|]. split; [lia|].
  apply (truncate_ascii_by_chars long_title "..." 60); [reflexivity | lia].
Defined.

(** * More about the aggregator *)

Lemma ellipsis60_length (t : string) : len (ellipsis60 t) <= 63.
Proof.
  unfold ellipsis60. destruct (Z.ltb_spec (len t) 60) as [Hlt|Hge]; [lia|].
  rewrite len_append.
  assert (len (take_bytes 60 t) = 60) as ->.
  { unfold len in *. rewrite length_take_bytes; lia. }
  reflexivity.
Qed.

Lemma ellipsis60_short (t : string) : len t < 60 → ellipsis60 t = t.
Proof. intros Ht. unfold ellipsis60. now destruct (Z.ltb_spec (len t) 60); [|lia]. Qed.

Lemma ellipsis60_idempotent (t : string) : ellipsis60 (ellipsis60 t) = ellipsis60 t.
Proof.
  pose proof (truncate_fixed t "..." _ 60 (truncate_60 t)) as Hfix.
  rewrite truncate_60 in Hfix. congruence.
Qed.

Section Runs.
Context `{LibraryFields}.

Lemma normalize_movie_idempotent (mov : rt.Movie) :
  normalize_movie (normalize_movie mov) = normalize_movie mov.
Proof. unfold normalize_movie, rt.set_Title. simpl. now rewrite ellipsis60_idempotent. Qed.

Lemma normalize_work_idempotent (w : gr.Work) :
  normalize_work (normalize_work w) = normalize_work w.
Proof. unfold normalize_work, gr.set_Title. simpl. now rewrite ellipsis60_idempotent. Qed.

Lemma normalize_album_idempotent (a : sp.Album) :
  normalize_album (normalize_album a) = normalize_album a.
Proof. unfold normalize_album, sp.set_Name. simpl. now rewrite ellipsis60_idempotent. Qed.

Lemma normalize_movie_short (mov : rt.Movie) :
  len (rt.Title mov) < 60 → normalize_movie mov = mov.
Proof.
  intros Ht. unfold normalize_movie. rewrite ellipsis60_short by exact Ht.
  now destruct mov.
Qed.

Lemma normalize_work_short (w : gr.Work) :
  len (gr.Title (gr.BestBook w)) < 60 → normalize_work w = w.
Proof.
  intros Ht. unfold normalize_work. rewrite ellipsis60_short by exact Ht.
  now destruct w as [[] ?].
Qed.

Lemma normalize_album_short (a : sp.Album) :
  len (sp.Name a) < 60 → normalize_album a = a.
Proof.
  intros Ht. unfold normalize_album. rewrite ellipsis60_short by exact Ht.
  now destruct a.
Qed.

(** The finished books and albums slots, written out. *)
Lemma books_after_all_eq (books : gr.GoodreadsResponse) :
  books_after (length (gr.Works (gr.Search books))) books =
  {| gr.Search :=
       {| gr.Works := normalize_work <$> gr.Works (gr.Search books);
          gr.results_rest := gr.results_rest (gr.Search books) |};
     gr.response_rest := gr.response_rest books |}.
Proof. unfold books_after. now rewrite firstn_all, drop_all, app_nil_r. Qed.

Lemma albums_after_all_eq (albums : sp.SearchAlbumsResponse) :
  albums_after (length (sp.Albums albums)) albums =
  {| sp.Albums := normalize_album <$> sp.Albums albums;
     sp.albums_rest := sp.albums_rest albums |}.
Proof. unfold albums_after. now rewrite firstn_all, drop_all, app_nil_r. Qed.

Lemma fmap_fixed {A} (f : A → A) (l : list A) :
  Forall (λ x, f x = x) l → f <$> l = l.
Proof. induction 1 as [|x l Hx _ IH]; [reflexivity|]. now rewrite fmap_cons, Hx, IH. Qed.

Variable q : string.
Variable rtClient : rt.RottenTomatoes.
Variable grClient : gr.Goodreads.
Variable spClient : sp.Spotify.

(** X5.  The bundle does not depend on how the goroutines interleave:
    any two schedules that let every goroutine finish make [Search]
    return the same three results. *)
Theorem Search_schedule_independent (sched sched' : list goroutine) :
  complete q rtClient grClient spClient sched →
  complete q rtClient grClient spClient sched' →
  Search q rtClient grClient spClient sched =
  Search q rtClient grClient spClient sched'.
Proof.
  intros Hc Hc'.
  destruct (Search_complete q rtClient grClient spClient sched Hc)
    as (st & _ & (_ & Hm & Hg & Hs & _) & ->).
  destruct (Search_complete q rtClient grClient spClient sched' Hc')
    as (st' & _ & (_ & Hm' & Hg' & Hs' & _) & ->).
  congruence.
Qed.

(** X6.  [wg.Wait()] is a barrier: [Search] returns a bundle under a
    schedule exactly when that schedule has let each of the three
    goroutines take all its steps; it never returns a bundle that a
    goroutine is still writing. *)
Theorem Search_returns_iff_complete (sched : list goroutine) :
  (∃ m g s, Search q rtClient grClient spClient sched = Returned m g s) ↔
  complete q rtClient grClient spClient sched.
Proof.
  split; [|apply Search_returns].
  intros (m1 & g1 & s1 & HS).
  destruct (run_inv q rtClient grClient spClient sched start
              (start_inv q rtClient grClient spClient))
    as (st & Hrun & Hinv & Htodo).
  unfold Search in HS. rewrite Hrun in HS.
  destruct (Z.eqb_spec (wg st) 0) as [H0|]; [|discriminate].
  pose proof (inv_wg_zero q rtClient grClient spClient st Hinv H0) as Hdone.
  repeat split.
  - specialize (Hdone go_rt). rewrite Htodo, todo_start in Hdone. lia.
  - specialize (Hdone go_gr). rewrite Htodo, todo_start in Hdone. lia.
  - specialize (Hdone go_sp). rewrite Htodo, todo_start in Hdone. lia.
Qed.

(** X7.  Under every schedule, complete or not, no goroutine panics and
    the wait group counter stays between 0 and 3: [wg.Done()] never
    drives it below zero. *)
Theorem Search_wait_group_in_range (sched : list goroutine) :
  ∃ st, run q rtClient grClient spClient sched start = Some st ∧ 0 <= wg st <= 3.
Proof.
  destruct (run_inv q rtClient grClient spClient sched start
              (start_inv q rtClient grClient spClient))
    as (st & Hrun & (_ & _ & _ & Hwg) & _).
  exists st. split; [exact Hrun|]. rewrite Hwg. unfold running.
  destruct (todo q rtClient grClient spClient go_rt st),
           (todo q rtClient grClient spClient go_gr st),
           (todo q rtClient grClient spClient go_sp st); lia.
Qed.

(** X8.  Every title in the bundle [Search] returns is at most 63 bytes
    long (60 of the title and the three of the suffix), whatever the
    clients returned. *)
Theorem Search_titles_bounded (sched : list goroutine) :
  complete q rtClient grClient spClient sched →
  ∃ m g s,
    Search q rtClient grClient spClient sched = Returned m g s ∧
    Forall (λ mov, len (rt.Title mov) <= 63) m ∧
    Forall (λ w, len (gr.Title (gr.BestBook w)) <= 63) (gr.Works (gr.Search g)) ∧
    Forall (λ a, len (sp.Name a) <= 63) (sp.Albums s).
Proof.
  intros Hc. destruct (Search_complete q rtClient grClient spClient sched Hc)
    as (st & _ & (_ & Hm & Hg & Hs & _) & HS).
  exists (m st), (g st), (s st). split; [exact HS|].
  rewrite Hm, Hg, Hs. unfold works0, books0, albums0, movies0.
  rewrite books_after_all, albums_after_all.
  split; [|split]; apply Forall_fmap, Forall_true; intros x; apply ellipsis60_length.
Qed.

(** X9.  A payload whose titles are all shorter than 60 bytes comes back
    untouched: the slot is equal to what the client returned. *)
Theorem Search_short_titles_untouched (sched : list goroutine) :
  complete q rtClient grClient spClient sched →
  ∃ m g s,
    Search q rtClient grClient spClient sched = Returned m g s ∧
    (Forall (λ mov, len (rt.Title mov) < 60) (rt.SearchMovies rtClient q).1 →
     m = (rt.SearchMovies rtClient q).1) ∧
    (Forall (λ w, len (gr.Title (gr.BestBook w)) < 60)
       (gr.Works (gr.Search (gr.SearchBooks grClient q).1)) →
     g = (gr.SearchBooks grClient q).1) ∧
    (Forall (λ a, len (sp.Name a) < 60) (sp.Albums (sp.SearchAlbums spClient q).1) →
     s = (sp.SearchAlbums spClient q).1).
Proof.
  intros Hc. destruct (Search_complete q rtClient grClient spClient sched Hc)
    as (st & _ & (_ & Hm & Hg & Hs & _) & HS).
  exists (m st), (g st), (s st). split; [exact HS|].
  rewrite Hm, Hg, Hs. unfold works0, books0, albums0, movies0.
  rewrite books_after_all_eq, albums_after_all_eq.
  split; [|split]; intros Hshort.
  - apply fmap_fixed. eapply Forall_impl; [exact Hshort|]. apply normalize_movie_short.
  - rewrite fmap_fixed.
    + now destruct (gr.SearchBooks grClient q).1 as [[] ?].
    + eapply Forall_impl; [exact Hshort|]. apply normalize_work_short.
  - rewrite fmap_fixed.
    + now destruct (sp.SearchAlbums spClient q).1.
    + eapply Forall_impl; [exact Hshort|]. apply normalize_album_short.
Qed.

(** X10.  Normalizing twice changes nothing more: when the clients of a
    second call return the three results of a first one (with or without
    errors), the second call returns these results as they are. *)
Theorem Search_of_bundle
    (rtClient' : rt.RottenTomatoes) (grClient' : gr.Goodreads)
    (spClient' : sp.Spotify) (sched sched' : list goroutine) m g s :
  complete q rtClient grClient spClient sched →
  Search q rtClient grClient spClient sched = Returned m g s →
  (rt.SearchMovies rtClient' q).1 = m →
  (gr.SearchBooks grClient' q).1 = g →
  (sp.SearchAlbums spClient' q).1 = s →
  complete q rtClient' grClient' spClient' sched' →
  Search q rtClient' grClient' spClient' sched' = Returned m g s.
Proof.
  intros Hc HS Hm' Hg' Hs' Hc'.
  destruct (Search_complete q rtClient grClient spClient sched Hc)
    as (st & _ & (_ & Hm & Hg & Hs & _) & HS1).
  rewrite HS1 in HS. injection HS as <- <- <-.
  destruct (Search_complete q rtClient' grClient' spClient' sched' Hc')
    as (st' & _ & (_ & Hm2 & Hg2 & Hs2 & _) & ->).
  unfold works0, books0, albums0, movies0 in *.
  rewrite Hm2, Hg2, Hs2, Hm', Hg', Hs'. f_equal.
  - rewrite Hm, <- list_fmap_compose. apply list_fmap_ext.
    intros ? mov _. apply normalize_movie_idempotent.
  - rewrite Hg, !books_after_all_eq. simpl. f_equal. f_equal.
    rewrite <- list_fmap_compose. apply list_fmap_ext.
    intros ? w _. apply normalize_work_idempotent.
  - rewrite Hs, !albums_after_all_eq. simpl. f_equal.
    rewrite <- list_fmap_compose. apply list_fmap_ext.
    intros ? a _. apply normalize_album_idempotent.
Qed.
End Runs.

Section Output.
Context `{LibraryFields}.
Variable q : string.
Variable rtClient : rt.RottenTomatoes.
Variable grClient : gr.Goodreads.
Variable spClient : sp.Spotify.

Local Abbreviation stdout_ok := (stdout_inv q rtClient grClient spClient).

Local Ltac open_step st Hinv :=
  destruct st as [m0 g0 s0 wg0 out0 tr0 pc_rt pc_gr pc_sp];
  unfold stdout_inv, printed_rt, printed_gr, printed_sp in *; simpl in *.

Lemma print_error_stdout tag err st :
  stdout (print_error tag err st) = stdout st ++ error_line tag err.
Proof. destruct err; simpl; [reflexivity | now rewrite app_nil_r]. Qed.

Lemma step_stdout who st st' :
  step q rtClient grClient spClient who st = Some st' → stdout_ok st → stdout_ok st'.
Proof.
  destruct st as [m0 g0 s0 wg0 out0 tr0 pc_rt pc_gr pc_sp].
  unfold stdout_inv, printed_rt, printed_gr, printed_sp.
  destruct who; simpl.
  - unfold step_rt. simpl. destruct pc_rt as [|[|mov rest]|]; simpl.
    + destruct (rt.SearchMovies rtClient q) as [movies [e|]]; intros [= <-] Hout;
        simpl in *; [|exact Hout].
      rewrite Hout. solve_Permutation.
    + destruct (Done wg0); simpl; [|discriminate]. now intros [= <-].
    + destruct (truncate _ _ _); simpl; [|discriminate]. now intros [= <-].
    + now intros [= <-].
  - unfold step_gr. simpl. destruct pc_gr as [|books i n|]; simpl.
    + destruct (gr.SearchBooks grClient q) as [books [e|]]; intros [= <-] Hout;
        simpl in *; [|exact Hout].
      rewrite Hout. solve_Permutation.
    + destruct (i <? n)%nat.
      * destruct (_ !! i); simpl; [|discriminate].
        destruct (truncate _ _ _); simpl; [|discriminate]. now intros [= <-].
      * destruct (Done wg0); simpl; [|discriminate]. now intros [= <-].
    + now intros [= <-].
  - unfold step_sp. simpl. destruct pc_sp as [|albums i n|]; simpl.
    + destruct (sp.SearchAlbums spClient q) as [albums [e|]]; intros [= <-] Hout;
        simpl in *; [|exact Hout].
      rewrite Hout. solve_Permutation.
    + destruct (i <? n)%nat.
      * destruct (_ !! i); simpl; [|discriminate].
        destruct (truncate _ _ _); simpl; [|discriminate]. now intros [= <-].
      * destruct (Done wg0); simpl; [|discriminate]. now intros [= <-].
    + now intros [= <-].
Qed.

Lemma run_stdout sched st st' :
  run q rtClient grClient spClient sched st = Some st' → stdout_ok st → stdout_ok st'.
Proof.
  revert st. induction sched as [|who sched IH]; intros st; simpl.
  - now intros [= <-].
  - destruct (step q rtClient grClient spClient who st) as [st1|] eqn:Hstep;
      simpl; [|discriminate].
    intros Hrun Hout. eapply IH; [exact Hrun|]. eapply step_stdout; eauto.
Qed.

(** X11.  When [Search] returns, standard output holds one line for each
    client that returned an error, made of the tag of the source, two
    spaces (the one of the tag and the one [Println] puts between its
    operands) and the error text, and no line for a client that
    succeeded; the schedule decides the order of the lines and nothing
    else. *)
Theorem Search_prints_each_failure (sched : list goroutine) :
  complete q rtClient grClient spClient sched →
  ∃ st,
    run q rtClient grClient spClient sched start = Some st ∧
    Search q rtClient grClient spClient sched = Returned (m st) (g st) (s st) ∧
    stdout st ≡ₚ
      error_line "ERROR (rt): " (rt.SearchMovies rtClient q).2 ++
      error_line "ERROR (gr): " (gr.SearchBooks grClient q).2 ++
      error_line "ERROR (sp): " (sp.SearchAlbums spClient q).2.
Proof.
  intros Hc.
  destruct (Search_complete q rtClient grClient spClient sched Hc)
    as (st & Hrun & _ & HS).
  exists st. split; [exact Hrun|]. split; [exact HS|].
  assert (Hout : stdout_ok st).
  { eapply run_stdout; [exact Hrun|]. unfold stdout_inv. reflexivity. }
  destruct (run_inv q rtClient grClient spClient sched start
              (start_inv q rtClient grClient spClient))
    as (st1 & Hrun1 & _ & Htodo).
  rewrite Hrun in Hrun1. injection Hrun1 as <-.
  destruct Hc as (Hrt & Hgr & Hsp).
  pose proof (Htodo go_rt) as H1. pose proof (Htodo go_gr) as H2.
  pose proof (Htodo go_sp) as H3.
  rewrite todo_start in H1, H2, H3.
  unfold stdout_inv, printed_rt, printed_gr, printed_sp in Hout.
  simpl in H1, H2, H3.
  destruct (at_rt st); [simpl in *; lia| |];
    (destruct (at_gr st); [simpl in *; lia| |]);
    (destruct (at_sp st); [simpl in *; lia| |]); exact Hout.
Qed.
End Output.

(** * Configuration *)

(** X12.  [parseYAML] returns a [nil] error exactly when the file can be
    read and the three keys "rt", "gr.key" and "gr.secret" can all be
    looked up, and the strings it then returns are the values found under
    these keys, in this order. *)
Theorem parseYAML_succeeds_iff
    (ReadFile : string → yaml.File * error) (configFile rtKey grKey grSecret : string) :
  parseYAML ReadFile configFile = (rtKey, grKey, grSecret, None) ↔
  ∃ config,
    ReadFile configFile = (config, None) ∧
    yaml.Get config "rt" = (rtKey, None) ∧
    yaml.Get config "gr.key" = (grKey, None) ∧
    yaml.Get config "gr.secret" = (grSecret, None).
Proof.
  unfold parseYAML. split.
  - destruct (ReadFile configFile) as [config [e|]]; [discriminate|].
    destruct (yaml.Get config "rt") as [k1 [e|]] eqn:H1; [discriminate|].
    destruct (yaml.Get config "gr.key") as [k2 [e|]] eqn:H2; [discriminate|].
    destruct (yaml.Get config "gr.secret") as [k3 [e|]] eqn:H3; [discriminate|].
    intros [= <- <- <-]. exists config. now rewrite H1, H2, H3.
  - intros (config & -> & H1 & H2 & H3). now rewrite H1, H2, H3.
Qed.

(** * Routing *)

Lemma strip_prefix_Some (p s q : string) :
  strip_prefix p s = Some q ↔ s = p +:+ q.
Proof.
  revert s. induction p as [|a p IH]; intros s; simpl.
  - split; [intros [= ->] | intros ->]; reflexivity.
  - destruct s as [|b s]; [split; discriminate|].
    destruct (Ascii.eqb_spec a b) as [->|Hne].
    + rewrite IH. split; [intros -> | intros [= ->]]; reflexivity.
    + split; [discriminate | intros [= ? ?]; congruence].
Qed.

Lemma substring_all (s : string) : String.substring 0 (String.length s) s = s.
Proof. induction s as [|c s IH]; simpl; [reflexivity | now rewrite IH]. Qed.

Module regexp_facts.
Import regexp.

(** The unfolding of [exec] at a greedy star. *)
Lemma exec_star (c : class) (prog : Regexp) pos b rest slots :
  exec (Star c :: prog) pos (String b rest) slots =
  if accepts c b then
    match exec (Star c :: prog) (S pos) rest slots with
    | Some found => Some found
    | None => exec prog pos (String b rest) slots
    end
  else exec prog pos (String b rest) slots.
Proof. reflexivity. Qed.

(** A run of literals consumes exactly that prefix. *)
Lemma exec_literals (p : string) (prog : Regexp) pos s slots :
  exec ((One ∘ Lit <$> String.list_ascii_of_string p) ++ prog) pos s slots =
  match strip_prefix p s with
  | Some rest => exec prog (pos + String.length p) rest slots
  | None => None
  end.
Proof.
  revert pos s. induction p as [|a p IH]; intros pos s; simpl.
  - now rewrite Nat.add_0_r.
  - destruct s as [|b s]; [reflexivity|].
    destruct (Ascii.eqb a b); [|reflexivity].
    rewrite IH. now rewrite Nat.add_succ_r.
Qed.

(** [.*] followed by the end of the text: the star takes all that is
    left, and there is a match only if no newline is left. *)
Lemma exec_dot_star_eol (n k : nat) pos rest slots :
  exec [Star Dot; Save n; Eol; Save k] pos rest slots =
  if no_newline rest
  then Some ((k, pos + String.length rest) :: (n, pos + String.length rest) :: slots)%nat
  else None.
Proof.
  revert pos. induction rest as [|b rest IH]; intros pos.
  - simpl. now rewrite Nat.add_0_r.
  - rewrite exec_star, IH. simpl.
    destruct (Ascii.eqb b newline); simpl; [reflexivity|].
    destruct (no_newline rest); [|reflexivity].
    now rewrite Nat.add_succ_r.
Qed.

Lemma validSearchPath_compiled :
  validSearchPath =
  Some (Save 0 :: Bol ::
        (One ∘ Lit <$> String.list_ascii_of_string "/search/") ++
        Save 2 :: [Star Dot; Save 3; Eol; Save 1]).
Proof. reflexivity. Qed.

Lemma find_after_start (prog : Regexp) pos rest :
  pos ≠ 0%nat → find (Save 0 :: Bol :: prog) pos rest = None.
Proof.
  revert pos. induction rest as [|b rest IH]; intros pos Hpos; simpl;
    destruct (Nat.eqb_spec pos 0); try lia; [reflexivity|].
  now apply IH.
Qed.

(** What the pattern of [validSearchPath] finds in a path. *)
Lemma FindStringSubmatch_validSearchPath (re : Regexp) (path : string) :
  validSearchPath = Some re →
  FindStringSubmatch re path =
  match strip_prefix "/search/" path with
  | Some query => if no_newline query then Some [path; query] else None
  | None => None
  end.
Proof.
  rewrite validSearchPath_compiled. intros [= <-].
  unfold FindStringSubmatch.
  assert (Hfind : ∀ prog, find (Save 0 :: Bol :: prog) 0 path =
                          exec prog 0 path [(0, 0)]%nat).
  { intros prog. destruct path as [|b path]; simpl.
    - now destruct (exec prog 0 "" [(0, 0)]%nat).
    - destruct (exec prog 0 (String b path) [(0, 0)]%nat); [reflexivity|].
      now apply find_after_start. }
  rewrite Hfind.
  rewrite (exec_literals "/search/" [Save 2; Star Dot; Save 3; Eol; Save 1]).
  destruct (strip_prefix "/search/" path) as [query|] eqn:Hq; [|reflexivity].
  apply strip_prefix_Some in Hq. subst path.
  change (exec (Save 2 :: [Star Dot; Save 3; Eol; Save 1]) ?p ?r ?s)
    with (exec [Star Dot; Save 3; Eol; Save 1] p r ((2, p) :: s)%nat).
  rewrite exec_dot_star_eol.
  destruct (no_newline query); [|reflexivity].
  simpl. unfold group_text. simpl.
  rewrite Nat.sub_0_r, substring_all. reflexivity.
Qed.
End regexp_facts.

Section Handlers.
Variables (ResponseWriter Request Effect : Type).
Variable URL_Path : Request → string.
Variable NotFound : ResponseWriter → Request → Effect.
Variable fn : ResponseWriter → Request → string → Effect.

(** X13.  For a request whose path is "/search/" followed by a query
    without a newline, the handler built by [makeSearchHandler] calls
    [fn] with exactly that query: the bytes after the prefix, unchanged,
    the empty query included. *)
Theorem makeSearchHandler_passes_query
    (w : ResponseWriter) (r : Request) (query : string) :
  URL_Path r = "/search/" +:+ query →
  no_newline query = true →
  makeSearchHandler ResponseWriter Request Effect URL_Path NotFound fn w r =
  Some (fn w r query).
Proof.
  intros Hpath Hquery. unfold makeSearchHandler.
  destruct validSearchPath as [re|] eqn:Hre; [|discriminate Hre]. simpl.
  rewrite (regexp_facts.FindStringSubmatch_validSearchPath re _ Hre).
  apply strip_prefix_Some in Hpath. rewrite Hpath, Hquery. reflexivity.
Qed.

(** X14.  For every other path, one that does not start with "/search/"
    or that has a newline after it, the handler answers with
    [http.NotFound] and [fn] is not run; the handler itself never
    panics. *)
Theorem makeSearchHandler_not_found (w : ResponseWriter) (r : Request) :
  (∀ query, URL_Path r = "/search/" +:+ query → no_newline query = false) →
  makeSearchHandler ResponseWriter Request Effect URL_Path NotFound fn w r =
  Some (NotFound w r).
Proof.
  intros Hpath. unfold makeSearchHandler.
  destruct validSearchPath as [re|] eqn:Hre; [|discriminate Hre]. simpl.
  rewrite (regexp_facts.FindStringSubmatch_validSearchPath re _ Hre).
  destruct (strip_prefix "/search/" (URL_Path r)) as [query|] eqn:Hq; [|reflexivity].
  apply strip_prefix_Some in Hq. now rewrite (Hpath query Hq).
Qed.
End Handlers.

(** ** The further statements on the sample data *)

Lemma Search_schedule_independent_witness :
  complete "dune" rt_ok gr_partial sp_ok (round_robin 4) ∧
  complete "dune" rt_ok gr_partial sp_ok (one_by_one 5) ∧
  Search "dune" rt_ok gr_partial sp_ok (round_robin 4) =
  Search "dune" rt_ok gr_partial sp_ok (one_by_one 5).
Proof.
  split; [enough_turns|]. split; [enough_turns|].
  apply (Search_schedule_independent "dune" rt_ok gr_partial sp_ok); enough_turns.
Defined.

Lemma Search_titles_bounded_witness :
  complete "dune" rt_ok gr_ok sp_ok (round_robin 4) ∧
  ∃ m g s,
    Search "dune" rt_ok gr_ok sp_ok (round_robin 4) = Returned m g s ∧
    Forall (λ mov, len (rt.Title mov) <= 63) m ∧
    Forall (λ w, len (gr.Title (gr.BestBook w)) <= 63) (gr.Works (gr.Search g)) ∧
    Forall (λ a, len (sp.Name a) <= 63) (sp.Albums s).
Proof.
  split; [enough_turns|].
  apply (Search_titles_bounded "dune" rt_ok gr_ok sp_ok (round_robin 4)).
  enough_turns.
Defined.

Lemma Search_short_titles_untouched_witness :
  complete "alien" rt_partial gr_partial sp_down (one_by_one 3) ∧
  ∃ m g s,
    Search "alien" rt_partial gr_partial sp_down (one_by_one 3) = Returned m g s ∧
    m = [alien] ∧ g = books_found [dune] ∧ s = sp.zero.
Proof.
  split; [enough_turns|].
  destruct (Search_short_titles_untouched "alien" rt_partial gr_partial sp_down
              (one_by_one 3))
    as (m & g & s & HS & Hm & Hg & Hs); [enough_turns|].
  exists m, g, s. split; [exact HS|].
  split; [|split].
  - apply Hm. repeat constructor.
  - apply Hg. repeat constructor.
  - apply Hs. constructor.
Defined.

(** Clients that hand back the results of a first search on [rt_ok],
    [gr_ok] and [sp_ok]. *)
Lemma Search_of_bundle_witness :
  complete "dune" rt_ok gr_ok sp_ok (round_robin 4) ∧
  Search "dune" rt_ok gr_ok sp_ok (round_robin 4) =
    Returned found_movies found_books found_albums ∧
  complete "dune" rt_again gr_again sp_again (one_by_one 4) ∧
  Search "dune" rt_again gr_again sp_again (one_by_one 4) =
    Returned found_movies found_books found_albums.
Proof.
  split; [enough_turns|]. split; [vm_compute; reflexivity|]. split; [enough_turns|].
  apply (Search_of_bundle "dune" rt_ok gr_ok sp_ok rt_again gr_again sp_again
           (round_robin 4) (one_by_one 4));
    [enough_turns | vm_compute; reflexivity | reflexivity.. | enough_turns].
Defined.

Lemma Search_prints_each_failure_witness :
  complete "dune" rt_down gr_ok sp_down (round_robin 4) ∧
  ∃ st,
    run "dune" rt_down gr_ok sp_down (round_robin 4) start = Some st ∧
    stdout st ≡ₚ ["ERROR (rt):  connection refused"; "ERROR (sp):  connection refused"].
Proof.
  split; [enough_turns|].
  destruct (Search_prints_each_failure "dune" rt_down gr_ok sp_down (round_robin 4))
    as (st & Hrun & _ & Hout); [enough_turns|].
  exists st. split; [exact Hrun | exact Hout].
Defined.

Lemma makeSearchHandler_passes_query_witness :
  id "/search/kind of blue" = "/search/" +:+ "kind of blue" ∧
  no_newline "kind of blue" = true ∧
  makeSearchHandler unit string string id (λ _ _, "404 page not found")
    (λ _ _ query, "results for " +:+ query) () "/search/kind of blue" =
  Some "results for kind of blue".
Proof.
  split; [reflexivity|]. split; [reflexivity|].
  apply (makeSearchHandler_passes_query unit string string id
           (λ _ _, "404 page not found") (λ _ _ query, "results for " +:+ query)
           () "/search/kind of blue" "kind of blue"); reflexivity.
Defined.

Lemma makeSearchHandler_not_found_witness :
  (∀ query, id "/list" = "/search/" +:+ query → no_newline query = false) ∧
  makeSearchHandler unit string string id (λ _ _, "404 page not found")
    (λ _ _ query, "results for " +:+ query) () "/list" =
  Some "404 page not found".
Proof.
  split; [intros query Hq; discriminate Hq|].
  apply (makeSearchHandler_not_found unit string string id
           (λ _ _, "404 page not found") (λ _ _ query, "results for " +:+ query)
           () "/list").
  intros query Hq. discriminate Hq.
Defined.

(** A path with the prefix and a newline in the query is not routed. *)
Example makeSearchHandler_newline :
  makeSearchHandler unit string string id (λ _ _, "404 page not found")
    (λ _ _ query, "results for " +:+ query) ()
    ("/search/kind" +:+ String regexp.newline "of blue") =
  Some "404 page not found".
Proof. vm_compute. reflexivity. Qed.
